(** * quodlibet.library.base: the keyed library, its persistence and the
      path scanner

    A shallow embedding of [quodlibet/library/base.py].  Python objects
    become Rocq values, the library object becomes a record that is threaded
    through a small state-and-exception monad, the dictionary [_contents]
    is a [gmap], Python sets of items are [gset]s, and the GObject signals a
    library emits are appended to a ghost list of events so that theorems can
    speak about "exactly one signal carrying exactly this set". *)

From Stdlib Require Import String Ascii.
From stdpp Require Import base option list gmap sets fin_maps strings.

Set Default Proof Using "Type".
Set Warnings "-register-all,-clear-no-such-hyp".

(** ** Exceptions and results *)

(** The exception classes that occur in the module.  [EnvironmentError] is
    Python's alias of [OSError]. *)
Inductive exn :=
  | AttributeError
  | TypeError
  | KeyError
  | SerializationError
  | EnvironmentError.

#[global] Instance exn_eq_dec : EqDecision exn.
Proof. solve_decision. Defined.

(** What evaluating a Python expression gives: a value or a raised
    exception. *)
Inductive Res (A : Type) :=
  | Ok (a : A)
  | Raise (e : exn).
Arguments Ok {A} a.
Arguments Raise {A} e.

#[global] Instance Res_ret : MRet Res := λ A a, Ok a.
#[global] Instance Res_bind : MBind Res := λ A B f r,
  match r with
  | Ok a => f a
  | Raise e => Raise e
  end.

(** [try: body except cls: handler] for a single exception class. *)
Definition try_except {A} (body : Res A) (cls : exn) (handler : Res A) : Res A :=
  match body with
  | Ok a => Ok a
  | Raise e => if decide (e = cls) then handler else Raise e
  end.

Definition raises {A} (r : Res A) : Prop := ∃ e, r = Raise e.

(** *** Stateful code: the state is threaded, exceptions propagate, and the
    mutations made before an exception stay. *)
Definition ST (S A : Type) : Type := S → S * Res A.

#[global] Instance ST_ret {S} : MRet (ST S) := λ A a s, (s, Ok a).
#[global] Instance ST_bind {S} : MBind (ST S) := λ A B f m s,
  match m s with
  | (s', Ok a) => f a s'
  | (s', Raise e) => (s', Raise e)
  end.

Definition raise {S A} (e : exn) : ST S A := λ s, (s, Raise e).
Definition gets {S A} (f : S → A) : ST S A := λ s, (s, Ok (f s)).
Definition modify {S} (f : S → S) : ST S unit := λ s, (f s, Ok tt).

(** An expression that reads the state and may raise. *)
Definition eval {S A} (f : S → Res A) : ST S A := λ s, (s, f s).

(** Runs [m] and hands its outcome to the [except] / [else] clauses. *)
Definition attempt {S A} (m : ST S A) : ST S (Res A) := λ s,
  let '(s', r) := m s in (s', Ok r).

(** [try: body except cls: handler], stateful. *)
Definition try_catch {S A} (body : ST S A) (cls : exn) (handler : ST S A)
    : ST S A := λ s,
  match body s with
  | (s', Ok a) => (s', Ok a)
  | (s', Raise e) => if decide (e = cls) then handler s' else (s', Raise e)
  end.

Definition on_fst {L W A} (m : ST L A) : ST (L * W) A := λ '(l, w),
  let '(l', r) := m l in ((l', w), r).
Definition on_snd {L W A} (m : ST W A) : ST (L * W) A := λ '(l, w),
  let '(w', r) := m w in ((l, w'), r).

Fixpoint for_each {S A} (l : list A) (body : A → ST S unit) : ST S unit :=
  match l with
  | [] => mret tt
  | x :: l' => body x;; for_each l' body
  end.

(** [[x for x in l if p x]] where evaluating [p x] may raise. *)
Fixpoint comprehension {S A} (p : A → ST S bool) (l : list A) : ST S (list A) :=
  match l with
  | [] => mret []
  | x :: l' =>
      b ← p x;
      r ← comprehension p l';
      mret (if b : bool then x :: r else r)
  end.

(** ** Paths ([os.path], POSIX flavour) *)

Definition is_sep (c : ascii) : bool := bool_decide (c = "/"%char).

Fixpoint drop_while {A} (p : A → bool) (l : list A) : list A :=
  match l with
  | [] => []
  | x :: l' => if p x then drop_while p l' else l
  end.

Definition ends_with_sep (p : string) : bool :=
  match last (list_ascii_of_string p) with
  | Some c => is_sep c
  | None => false
  end.

(** [os.path.join(a, b)] *)
Definition os_path_join (a b : string) : string :=
  if String.prefix "/" b then b
  else if bool_decide (a = "") || ends_with_sep a then a +:+ b
  else a +:+ "/" +:+ b.

(** [os.path.isabs(p)] *)
Definition os_path_isabs (p : string) : bool := String.prefix "/" p.

(** [os.path.dirname(p)]: everything up to the last separator, without
    trailing separators unless it consists of separators only. *)
Definition os_path_dirname (p : string) : string :=
  let head :=
    reverse (drop_while (λ c, negb (is_sep c)) (reverse (list_ascii_of_string p))) in
  if forallb is_sep head then string_of_list_ascii head
  else string_of_list_ascii (reverse (drop_while is_sep (reverse head))).

(** [os.path.basename(p)]: what follows the last separator. *)
Definition os_path_basename (p : string) : string :=
  let fix tail (acc l : list ascii) :=
    match l with
    | [] => acc
    | c :: l' => if is_sep c then tail l' l' else tail acc l'
    end in
  let cs := list_ascii_of_string p in
  string_of_list_ascii (tail cs cs).

(** ** The world outside the process *)

Abbreviation bytes := (list Byte.byte).

Inductive log_entry :=
  | PrintW (path : option string)   (* [print_w]: the warning names a path *)
  | PrintExc (e : exn).             (* [util.print_exc] *)

(** The file system and the log.  [history] is a ghost field: every value
    the file table took, in order, so that what a concurrent reader could
    have observed can be stated. *)
Record World := mkWorld {
  files : gmap string bytes;
  dirs : gset string;
  console : list log_entry;
  history : list (gmap string bytes)
}.

Definition set_files (f : gmap string bytes → gmap string bytes) (w : World)
    : World :=
  mkWorld (f (files w)) (dirs w) (console w) (history w ++ [f (files w)]).

Definition add_dir (d : string) (w : World) : World :=
  mkWorld (files w) ({[d]} ∪ dirs w) (console w) (history w).

Definition log (e : log_entry) (w : World) : World :=
  mkWorld (files w) (dirs w) (console w ++ [e]) (history w).

Definition print_w (p : option string) : ST World unit := modify (log (PrintW p)).
Definition print_exc (e : exn) : ST World unit := modify (log (PrintExc e)).

(** How copying a file can go wrong. *)
Inductive copy_fault :=
  | CopyRefused               (* the destination cannot be created *)
  | CopyTruncated (n : nat).  (* the device fills up after [n] bytes *)

(** What the operating system decides during one call: which of the
    operations that can fail with an [EnvironmentError] do fail. *)
Record Faults := mkFaults {
  read_denied : bool;
  copy_fails : option copy_fault;
  mkdir_fails : bool;
  tmp_fails : bool;
  write_fails : option nat;
  commit_fails : bool
}.

Definition no_faults : Faults := mkFaults false None false false None false.

(** [with open(p, "rb") as fp: fp.read()] *)
Definition read_file (φ : Faults) (p : string) : ST World bytes := λ w,
  if read_denied φ then (w, Raise EnvironmentError)
  else match files w !! p with
       | Some data => (w, Ok data)
       | None => (w, Raise EnvironmentError)
       end.

(** [shutil.copy(src, dst)] *)
Definition shutil_copy (φ : Faults) (src dst : string) : ST World unit := λ w,
  match files w !! src with
  | None => (w, Raise EnvironmentError)
  | Some data =>
      match copy_fails φ with
      | None => (set_files (<[dst := data]>) w, Ok tt)
      | Some CopyRefused => (w, Raise EnvironmentError)
      | Some (CopyTruncated n) =>
          (set_files (<[dst := take n data]>) w, Raise EnvironmentError)
      end
  end.

(** Modelled from the spec: [quodlibet.util.path.mkdir], which the
    repository defines outside this module; the spec says of it only that
    save "ensures the parent directory exists". *)
Definition mkdir (φ : Faults) (d : string) : ST World unit := λ w,
  if mkdir_fails φ then (w, Raise EnvironmentError) else (add_dir d w, Ok tt).

Section AtomicSave.
(** Where the temporary file of a target path lives. *)
Variable tmp_location : string → string.

(** Modelled from the spec: [quodlibet.util.atomic.atomic_save], which the
    repository defines outside this module.  In the spec's words "output is
    written to a temporary location and only renamed into place on complete
    success".  [body] is the outcome of the expression whose value the
    [with] block writes; the spec does not say what becomes of the temporary
    file after a failure, and the model leaves it where it is. *)
Definition atomic_save (φ : Faults) (target : string) (body : Res bytes)
    : ST World unit :=
  let tmp := tmp_location target in
  (if tmp_fails φ then raise EnvironmentError
   else modify (set_files (<[tmp := []]>)));;
  data ← eval (λ _, body);
  match write_fails φ with
  | Some n => modify (set_files (<[tmp := take n data]>));; raise EnvironmentError
  | None => modify (set_files (<[tmp := data]>))
  end;;
  if commit_fails φ then raise EnvironmentError
  else modify (set_files (λ fs, <[target := data]> (delete tmp fs))).
End AtomicSave.

(** ** Items *)

(** [HasKey]: the only interface the library needs of its items is the
    [key] attribute.  Keys are hashable ([Countable]); items are hashable
    too, since they are collected in sets.  Nothing relates equality of
    items to equality of their keys: two different objects may carry the
    same key. *)
Class HasKey (K V : Type) := key : V → K.
#[global] Hint Mode HasKey - ! : typeclass_instances.

(** The three signals of [__gsignals__]. *)
Inductive signal := Changed | Removed | Added.

#[global] Instance signal_eq_dec : EqDecision signal.
Proof. solve_decision. Defined.

(** The coordinator ("librarian"), as far as this module looks into it: the
    mapping [libraries] from names to the library objects it manages.  A
    library object is identified by its identity. *)
Record Librarian := mkLibrarian {
  libraries : gmap string nat
}.

Section Library.
Context {K V : Type} `{Countable K} `{Countable V} `{!HasKey K V}.

(** Python values that can reach [__contains__]. *)
Inductive pyobj :=
  | PKey (k : K)            (* a value of the key type *)
  | PItem (v : V)           (* an object with a [key] attribute *)
  | POpaque (n : nat)       (* hashable, no [key] attribute, equal to no key *)
  | PUnhashable (n : nat).  (* e.g. a list: hashing it raises TypeError *)

(** Observable effects of a library: the signals it emits and the calls it
    makes to the librarian.  [print_d] (debug tracing) is not modelled. *)
Inductive event :=
  | Emit (sg : signal) (items : gset V)
  | LibrarianChanged (items : list V).

(** The library object ([PicklingLibrary]: a [Library] with the
    [PicklingMixin] attribute [filename]).  [self_id] is the identity of
    the object and [events] a ghost field. *)
Record Library := mkLibrary {
  _contents : gmap K V;
  _name : option string;
  dirty : bool;
  librarian : option Librarian;
  filename : option string;
  self_id : nat;
  events : list event
}.

Definition set_contents (f : gmap K V → gmap K V) (s : Library) : Library :=
  mkLibrary (f (_contents s)) (_name s) (dirty s) (librarian s)
            (filename s) (self_id s) (events s).

Definition set_dirty (b : bool) (s : Library) : Library :=
  mkLibrary (_contents s) (_name s) b (librarian s)
            (filename s) (self_id s) (events s).

Definition set_filename (p : option string) (s : Library) : Library :=
  mkLibrary (_contents s) (_name s) (dirty s) (librarian s)
            p (self_id s) (events s).

Definition record (e : event) (s : Library) : Library :=
  mkLibrary (_contents s) (_name s) (dirty s) (librarian s)
            (filename s) (self_id s) (events s ++ [e]).

(** [Library.__init__] with the class attributes [librarian = None],
    [dirty = False] and [filename = None]. *)
Definition new_library (id : nat) (name : option string) : Library :=
  mkLibrary ∅ name false None None id [].

(** [self.emit(sg, items)] *)
Definition emit (sg : signal) (items : gset V) : ST Library unit :=
  modify (record (Emit sg items)).

(** I1, the keying invariant: every key of [_contents] is the key of the
    item stored under it. *)
Definition keyed (self : Library) : Prop :=
  ∀ k v, _contents self !! k = Some v → key v = k.

(** From [s] to [s'] at most one event (a signal, or a call to the
    librarian) was recorded, none was withdrawn, and a signal that was
    emitted carries a non-empty set (I4). *)
Definition emitted_one_at_most (s s' : Library) : Prop :=
  ∃ es, events s' = events s ++ es
        ∧ length es ≤ 1
        ∧ ∀ sg items, Emit sg items ∈ es → items ≠ ∅.

(** *** Membership *)

(** [o in d] for a dict [d]: the argument is hashed and compared with the
    keys.  An item object is not itself a key. *)
Definition dict_contains (d : gmap K V) (o : pyobj) : Res bool :=
  match o with
  | PKey k => Ok (bool_decide (k ∈ dom d))
  | PItem _ | POpaque _ => Ok false
  | PUnhashable _ => Raise TypeError
  end.

(** [o.key] *)
Definition getattr_key (o : pyobj) : Res pyobj :=
  match o with
  | PItem v => Ok (PKey (key v))
  | _ => Raise AttributeError
  end.

Definition __contains__ (self : Library) (item : pyobj) : Res bool :=
  try_except
    (b ← dict_contains (_contents self) item;
     if b : bool then Ok true
     else k ← getattr_key item; dict_contains (_contents self) k)
    AttributeError
    (Ok false).

(** Whether Python can hash the value. *)
Definition hashable (o : pyobj) : bool :=
  match o with
  | PUnhashable _ => false
  | _ => true
  end.

(** [item in self] inside a method *)
Definition is_in (item : V) : ST Library bool :=
  eval (λ self, __contains__ self (PItem item)).

(** *** Change notification *)

(** [self.librarian and self in self.librarian.libraries.values()] *)
Definition managed (self : Library) : bool :=
  match librarian self with
  | None => false
  | Some l => bool_decide (self_id self ∈ (map_to_list (libraries l)).*2)
  end.

Definition _changed (items : gset V) : ST Library unit :=
  if decide (items = ∅) then mret tt
  else
    modify (set_dirty true);;
    emit Changed items.

Definition changed (items : list V) : ST Library unit :=
  match items with
  | [] => mret tt
  | _ =>
      delegate ← gets managed;
      if delegate : bool then modify (record (LibrarianChanged items))
      else
        present ← comprehension is_in items;
        let items : gset V := list_to_set present in
        if decide (items = ∅) then mret tt
        else _changed items
  end.

(** *** Mutation *)

Definition _load_item (item : V) : ST Library unit :=
  modify (set_dirty true);;
  modify (set_contents (<[key item := item]>)).

Definition _load_init (items : list V) : ST Library unit :=
  for_each items (λ item, modify (set_contents (<[key item := item]>))).

Definition add (items : list V) : ST Library (gset V) :=
  fresh ← comprehension (λ item, b ← is_in item; mret (negb b)) items;
  let items : gset V := list_to_set fresh in
  if decide (items = ∅) then mret items
  else
    for_each (elements items)
      (λ item, modify (set_contents (<[key item := item]>)));;
    modify (set_dirty true);;
    emit Added items;;
    mret items.

(** [del self._contents[k]] *)
Definition del_contents (k : K) : ST Library unit := λ s,
  match _contents s !! k with
  | Some _ => (set_contents (delete k) s, Ok tt)
  | None => (s, Raise KeyError)
  end.

Definition remove (items : list V) : ST Library (gset V) :=
  present ← comprehension is_in items;
  let items : gset V := list_to_set present in
  if decide (items = ∅) then mret items
  else
    for_each (elements items) (λ item, del_contents (key item));;
    modify (set_dirty true);;
    emit Removed items;;
    mret items.

(** [list(self.values())] *)
Definition get_content (self : Library) : list V :=
  (map_to_list (_contents self)).*2.

(** *** The read surface *)

(** [self._contents[key]]: a dictionary subscript hashes its argument and
    raises [KeyError] when no key equals it. *)
Definition __getitem__ (self : Library) (o : pyobj) : Res V :=
  match o with
  | PKey k =>
      match _contents self !! k with
      | Some v => Ok v
      | None => Raise KeyError
      end
  | PItem _ | POpaque _ => Raise KeyError
  | PUnhashable _ => Raise TypeError
  end.

Definition __len__ (self : Library) : nat := size (_contents self).

(** [iteritems], [keys] / [iterkeys] and [values] / [itervalues] /
    [__iter__] walk the one dictionary, so they agree on the order; the
    order itself (Python's is that of insertion) is not modelled. *)
Definition iteritems (self : Library) : list (K * V) :=
  map_to_list (_contents self).

Definition keys (self : Library) : list K := (iteritems self).*1.

Definition values (self : Library) : list V := (iteritems self).*2.

Definition iterkeys (self : Library) : list K := keys self.

Definition itervalues (self : Library) : list V := values self.

Definition __iter__ (self : Library) : list V := values self.

(** *** Registration with the librarian *)

(** The calls a library makes to its librarian when it is made and when it
    is destroyed; the librarian's methods themselves are outside the
    module. *)
Inductive librarian_call :=
  | Register (lib : nat) (name : string)
  | Unregister (lib : nat) (name : string).

(** [Library.__init__(name)] for a class whose attribute [librarian] is
    [cls_librarian]; [id] is the identity of the new object. *)
Definition __init__ (cls_librarian : option Librarian) (id : nat)
    (name : option string) : Library * list librarian_call :=
  let self := mkLibrary ∅ name false cls_librarian None id [] in
  match cls_librarian, name with
  | Some _, Some n => (self, [Register id n])
  | _, _ => (self, [])
  end.

Definition destroy (self : Library) : list librarian_call :=
  match librarian self, _name self with
  | Some _, Some n => [Unregister (self_id self) n]
  | _, _ => []
  end.

(** *** Persistence *)

(** The item codec of [quodlibet.formats], external to the library: each
    function either returns or raises [SerializationError], here [None]. *)
Variable load_audio_files : bytes → option (list V).
Variable dump_audio_files : list V → option bytes.
Variable tmp_location : string → string.

Definition codec_result {A} (o : option A) : Res A :=
  match o with
  | Some a => Ok a
  | None => Raise SerializationError
  end.

Definition _load_items (φ : Faults) (fname : string) : ST World (list V) :=
  r ← attempt (read_file φ fname);
  match r with
  | Raise EnvironmentError => print_w (Some fname);; mret []
  | Raise e => raise e
  | Ok data =>
      match codec_result (load_audio_files data) with
      | Raise SerializationError =>
          print_exc SerializationError;;
          try_catch (shutil_copy φ fname (fname +:+ ".not-valid"))
            EnvironmentError (print_exc EnvironmentError);;
          mret []
      | Raise e => raise e
      | Ok items => mret items
      end
  end.

Definition load (φ : Faults) (fname : string) : ST (Library * World) unit :=
  on_fst (modify (set_filename (Some fname)));;
  items ← on_snd (_load_items φ fname);
  on_fst (_load_init items).

(** The body of the [try] statement of [save]. *)
Definition write_library (φ : Faults) (fname : option string)
    : ST (Library * World) unit :=
  fname ← match fname with
          | Some p => mret p
          | None => raise TypeError    (* [os.path.dirname(None)] *)
          end;
  on_snd (mkdir φ (os_path_dirname fname));;
  content ← on_fst (gets get_content);
  on_snd (atomic_save tmp_location φ fname
            (codec_result (dump_audio_files content))).

Definition save (φ : Faults) (fname : option string)
    : ST (Library * World) unit :=
  default ← on_fst (gets filename);
  let fname := if fname is None then default else fname in
  r ← attempt (write_library φ fname);
  match r with
  | Raise SerializationError => on_snd (print_exc SerializationError)
  | Raise EnvironmentError => on_snd (print_w fname)
  | Raise e => raise e
  | Ok _ => on_fst (modify (set_dirty false))
  end.

End Library.

Arguments Library K V {_ _ _ _}.
Arguments pyobj : clear implicits.
Arguments event V {_ _}.
Arguments librarian_call : clear implicits.

(** ** The path scanner *)

(** A directory as [os.walk] sees it: the sub-directories with their own
    trees, and the names of everything else.  A symbolic link to a directory
    is listed among the directory names but never walked into. *)
Inductive node :=
  | Dir (dnames : list (string * node)) (fnames : list string)
  | DirLink.

(** [located root t chain full]: the tree [t] at path [root] has the file
    entry [full], reached through the directories [chain] (full paths,
    outermost first) below [root]. *)
Inductive located : string → node → list string → string → Prop :=
  | located_here path dnames fnames f :
      f ∈ fnames →
      located path (Dir dnames fnames) [] (os_path_join path f)
  | located_below path dnames fnames d sub chain full :
      (d, sub) ∈ dnames →
      located (os_path_join path d) sub chain full →
      located path (Dir dnames fnames) (os_path_join path d :: chain) full.

(** [os.walk(path)], top-down, where the consumer prunes from [dnames] the
    directories whose path [keep] rejects.  Yields the directory path and
    its file names. *)
Fixpoint os_walk (keep : string → bool) (path : string) (t : node)
    : list (string * list string) :=
  match t with
  | DirLink => []
  | Dir dnames fnames =>
      (path, fnames) ::
      (fix descend (ds : list (string * node)) :=
         match ds with
         | [] => []
         | (d, sub) :: ds' =>
             (if keep (os_path_join path d)
              then os_walk keep (os_path_join path d) sub
              else [])
             ++ descend ds'
         end) dnames
  end.

Section Scanner.
(** [quodlibet.util.path.ishidden] and [os.path.realpath] are taken as
    given. *)
Variable ishidden : string → bool.
Variable realpath : string → string.

(** The local function [skip(path)] of [iter_paths]. *)
Definition skip (exclude : list string) (skip_hidden : bool) (path : string)
    : bool :=
  if skip_hidden && ishidden path then true
  else existsb (λ p, String.prefix p path) exclude.

(** [iter_paths(root, exclude, skip_hidden)] over the directory tree [t]
    found at [root]; the result lists what the generator yields. *)
Definition iter_paths (t : node) (root : string) (exclude : list string)
    (skip_hidden : bool) : list string :=
  if skip_hidden && ishidden root then []
  else
    '(path, fnames) ← os_walk (λ d, negb (skip_hidden && ishidden d)) root t;
    filename ← fnames;
    let fullfilename := os_path_join path filename in
    if skip exclude skip_hidden fullfilename then []
    else
      let fullfilename := realpath fullfilename in
      if skip exclude skip_hidden fullfilename then []
      else [fullfilename].

End Scanner.

(** ** Concrete instances used in examples *)

(** Items identified by a path, with a payload that tells apart two objects
    for the same path. *)
Definition song : Type := string * nat.

#[global] Instance song_key : HasKey string song := fst.

(** A toy codec: one byte per item, refusing more than three items; every
    byte other than [0x2a] is undecodable. *)
Definition toy_dump (l : list song) : option bytes :=
  if decide (length l ≤ 3) then Some (replicate (length l) Byte.x2a) else None.

Definition toy_load (data : bytes) : option (list song) :=
  if forallb (λ b, Byte.eqb b Byte.x2a) data
  then Some (imap (λ i _, ("t", i)) data)
  else None.

Definition toy_tmp (p : string) : string := p +:+ "_.tmp".

(** Modelled from the spec: [quodlibet.util.path.ishidden], defined outside
    this module; a path is "hidden (by name convention)" when its last
    component starts with a dot. *)
Definition dot_hidden (p : string) : bool :=
  String.prefix "." (os_path_basename p).

(** The tree of the scenario: [/r/.hidden/x], [/r/a.txt], [/r/b/c.txt]. *)
Definition scenario_tree : node :=
  Dir [(".hidden", Dir [] ["x"]); ("b", Dir [] ["c.txt"])] ["a.txt"].

(** Example inputs. *)
Definition track_a : song := ("a", 1).
Definition track_a' : song := ("a", 2).
Definition track_b : song := ("b", 1).

Definition empty_library : Library string song := new_library 0 None.

(** A library restored from disk with [track_a] in it. *)
Definition library_a : Library string song :=
  (_load_init [track_a] empty_library).1.

(** A library registered with a librarian under the name ["main"], and one
    whose librarian manages only some other library. *)
Definition managed_library : Library string song :=
  mkLibrary {["a" := track_a]} (Some "main") false
            (Some (mkLibrarian {["main" := 0]})) None 0 [].

Definition unmanaged_library : Library string song :=
  mkLibrary {["a" := track_a]} (Some "main") false
            (Some (mkLibrarian {["other" := 1]})) None 0 [].

(** The same tree with a link [/r/l.txt] to the file in the hidden
    directory, and the [realpath] that resolves it. *)
Definition linked_tree : node :=
  Dir [(".hidden", Dir [] ["x"]); ("b", Dir [] ["c.txt"])] ["a.txt"; "l.txt"].

Definition linked_realpath (p : string) : string :=
  if bool_decide (p = "/r/l.txt") then "/r/.hidden/x" else p.

(** A library with unsaved additions, and one with more items than the toy
    encoder accepts. *)
Definition unsaved_library : Library string song :=
  (add [track_a; track_b] empty_library).1.

Definition crowded_library : Library string song :=
  (add [("a", 1); ("b", 1); ("c", 1); ("d", 1)] empty_library).1.

(** A disk holding an earlier save, and one whose library file is garbage. *)
Definition disk : World :=
  mkWorld {["lib.db" := [Byte.x2a]]} ∅ [] [].

Definition bad_disk : World :=
  mkWorld {["lib.db" := [Byte.x00; Byte.xff]]} ∅ [] [].

Definition disk_full : Faults := mkFaults false None false false (Some 1) false.

(** A library whose one item is the item the toy decoder produces. *)
Definition library_t : Library string song :=
  (_load_init [("t", 0)] empty_library).1.

(** * Theorems *)

Ltac run := unfold mbind, mret, ST_bind, ST_ret, Res_bind, Res_ret; simpl.

(** Closed facts about concrete finite sets: compare their elements. *)
Ltac by_elements :=
  let Heq := fresh in
  intros Heq; apply (f_equal (@elements _ (gset _) _)) in Heq;
  vm_compute in Heq; discriminate Heq.

Section LibraryFacts.
Context {K V : Type} `{Countable K} `{Countable V} `{!HasKey K V}.
Implicit Types (s self : Library K V) (v item : V) (k : K) (l items : list V).

Lemma set_contents_id s : set_contents (λ m, m) s = s.
Proof. by destruct s. Qed.

(** For an item, membership is the presence of its key. *)
Lemma contains_item s v :
  __contains__ s (PItem v) = Ok (bool_decide (key v ∈ dom (_contents s))).
Proof. reflexivity. Qed.

Lemma contains_key s k :
  __contains__ s (PKey k) = Ok (bool_decide (k ∈ dom (_contents s))).
Proof.
  unfold __contains__, try_except. run.
  by destruct (bool_decide (k ∈ dom (_contents s))).
Qed.

Lemma comprehension_is_in s l :
  comprehension is_in l s
  = (s, Ok (filter (λ v, key v ∈ dom (_contents s)) l)).
Proof.
  induction l as [|v l IH]; [done|].
  cbn [comprehension]. run. rewrite IH, filter_cons.
  by case_bool_decide; case_decide.
Qed.

Lemma comprehension_not_in s l :
  comprehension (λ item, b ← is_in item; mret (negb b)) l s
  = (s, Ok (filter (λ v, key v ∉ dom (_contents s)) l)).
Proof.
  induction l as [|v l IH]; [done|].
  cbn [comprehension]. run. unfold mbind, mret, ST_bind, ST_ret in IH.
  simpl in IH. rewrite IH, filter_cons.
  by case_bool_decide; case_decide.
Qed.

(** The insertion loop, as one update of the mapping. *)
Lemma for_each_insert l s :
  for_each l (λ item, modify (set_contents (<[key item := item]>))) s
  = (set_contents (λ m, foldl (λ m v, <[key v := v]> m) m l) s, Ok tt).
Proof.
  revert s. induction l as [|v l IH]; intros s.
  - simpl. run. by rewrite set_contents_id.
  - cbn [for_each]. run. unfold mbind, ST_bind in IH. rewrite IH.
    by destruct s.
Qed.

(** After the loop a key holds the last item of the list that carries it,
    and what it held before when there is none. *)
Lemma lookup_insert_loop l (m : gmap K V) k :
  foldl (λ m v, <[key v := v]> m) m l !! k
  = match last (filter (λ v, key v = k) l) with
    | Some v => Some v
    | None => m !! k
    end.
Proof.
  induction l as [|v l IH] using rev_ind; [done|].
  rewrite foldl_snoc, filter_app, filter_cons, filter_nil.
  case_decide as Hk.
  - by rewrite last_snoc, Hk, lookup_insert_eq.
  - by rewrite app_nil_r, lookup_insert_ne.
Qed.

Lemma lookup_insert_loop_other l (m : gmap K V) k :
  (∀ v, v ∈ l → key v ≠ k) →
  foldl (λ m v, <[key v := v]> m) m l !! k = m !! k.
Proof.
  intros Hl. rewrite lookup_insert_loop.
  destruct (last _) as [v|] eqn:Hlast; [|done].
  apply last_Some_elem_of, list_elem_of_filter in Hlast as [? ?].
  by destruct (Hl v).
Qed.

Lemma lookup_insert_loop_elem l (m : gmap K V) v :
  v ∈ l →
  ∃ v', v' ∈ l ∧ key v' = key v
        ∧ foldl (λ m v, <[key v := v]> m) m l !! key v = Some v'.
Proof.
  intros Hv. rewrite lookup_insert_loop.
  destruct (last _) as [v'|] eqn:Hlast.
  - apply last_Some_elem_of, list_elem_of_filter in Hlast as [? ?]. eauto.
  - apply last_None in Hlast.
    by destruct (filter_nil_not_elem_of _ _ v Hlast).
Qed.

Lemma dom_insert_loop l (m : gmap K V) :
  dom (foldl (λ m v, <[key v := v]> m) m l) = dom m ∪ list_to_set (key <$> l).
Proof.
  revert m. induction l as [|v l IH]; intros m; simpl.
  - set_solver.
  - rewrite IH, dom_insert_L. set_solver.
Qed.

Lemma keyed_insert_loop l (m : gmap K V) :
  (∀ k v, m !! k = Some v → key v = k) →
  ∀ k v, foldl (λ m v, <[key v := v]> m) m l !! k = Some v → key v = k.
Proof.
  intros Hm k v. rewrite lookup_insert_loop.
  destruct (last _) as [v'|] eqn:Hlast; [|by apply Hm].
  apply last_Some_elem_of, list_elem_of_filter in Hlast as [? ?]. congruence.
Qed.

Lemma bind_ok {S A B} (m : ST S A) (f : A → ST S B) (σ σ' : S) a :
  m σ = (σ', Ok a) → (m ≫= f) σ = f a σ'.
Proof. intros Hm. unfold mbind, ST_bind. by rewrite Hm. Qed.

Lemma bind_raise {S A B} (m : ST S A) (f : A → ST S B) (σ σ' : S) e :
  m σ = (σ', Raise e) → (m ≫= f) σ = (σ', Raise e).
Proof. intros Hm. unfold mbind, ST_bind. by rewrite Hm. Qed.

Lemma filter_none {A} (P : A → Prop) `{∀ x, Decision (P x)} (l : list A) :
  (∀ x, x ∈ l → ¬ P x) → filter P l = [].
Proof.
  induction l as [|x l IH]; intros Hl; [done|].
  rewrite filter_cons, decide_False by (apply Hl; by left).
  apply IH. intros y Hy. apply Hl. by right.
Qed.

(** What [add] computes, in one piece. *)
Lemma add_eq s items :
  add items s
  = let accepted : gset V :=
      list_to_set (filter (λ v, key v ∉ dom (_contents s)) items) in
    (if decide (accepted = ∅) then s
     else record (Emit Added accepted)
            (set_dirty true
               (set_contents
                  (λ m, foldl (λ m v, <[key v := v]> m) m (elements accepted))
                  s)),
     Ok accepted).
Proof.
  unfold add. erewrite bind_ok by apply comprehension_not_in.
  cbv zeta. case_decide; [done|].
  by erewrite bind_ok by apply for_each_insert.
Qed.

(** C1.  [add] accepts exactly the items of its input that are not in the
    library, membership being the one [__contains__] computes (it accepts a
    contained key, and under the keying invariant every contained item);
    it returns the accepted set; when that set is not empty every accepted
    item's key is bound afterwards to an accepted item with that key (to the
    item itself when the accepted items have pairwise different keys), all
    other keys are untouched, [dirty] is set and exactly one [added] signal
    carrying the accepted set is appended; when it is empty the library is
    unchanged; and adding the same input again accepts and emits nothing. *)
Theorem add_spec s items :
  let accepted : gset V :=
    list_to_set (filter (λ v, key v ∉ dom (_contents s)) items) in
  ∃ s',
    add items s = (s', Ok accepted)
    ∧ (∀ v, v ∈ accepted ↔ v ∈ items ∧ __contains__ s (PItem v) = Ok false)
    ∧ (∀ k, k ∈ dom (_contents s) → __contains__ s (PKey k) = Ok true)
    ∧ (keyed s → ∀ k v, _contents s !! k = Some v →
         __contains__ s (PItem v) = Ok true)
    ∧ (accepted ≠ ∅ →
         dirty s' = true
         ∧ events s' = events s ++ [Emit Added accepted]
         ∧ (∀ v, v ∈ accepted →
              ∃ v', v' ∈ accepted ∧ key v' = key v
                    ∧ _contents s' !! key v = Some v')
         ∧ ((∀ v v', v ∈ accepted → v' ∈ accepted → key v = key v' → v = v') →
              ∀ v, v ∈ accepted → _contents s' !! key v = Some v)
         ∧ (∀ k, (∀ v, v ∈ accepted → key v ≠ k) →
              _contents s' !! k = _contents s !! k))
    ∧ (accepted = ∅ → s' = s)
    ∧ add items s' = (s', Ok ∅).
Proof.
  intros accepted.
  assert (Hacc : ∀ v, v ∈ accepted ↔ v ∈ items ∧ key v ∉ dom (_contents s)).
  { intros v. unfold accepted.
    rewrite elem_of_list_to_set, list_elem_of_filter. tauto. }
  assert (Hnone : ∀ s0, (∀ v, v ∈ items → key v ∈ dom (_contents s0)) →
                        add items s0 = (s0, Ok ∅)).
  { intros s0 Hin. rewrite add_eq.
    rewrite filter_none by (intros v Hv Hnot; by apply Hnot, Hin).
    cbv zeta. by rewrite list_to_set_nil, decide_True. }
  set (s1 := set_contents
               (λ m, foldl (λ m v, <[key v := v]> m) m (elements accepted)) s).
  exists (if decide (accepted = ∅) then s
          else record (Emit Added accepted) (set_dirty true s1)).
  split; [|split; [|split; [|split; [|split; [|split]]]]].
  - apply add_eq.
  - intros v. rewrite Hacc, contains_item.
    case_bool_decide; split; intros [? ?]; split; try done; congruence.
  - intros k Hk. by rewrite contains_key, bool_decide_eq_true_2.
  - intros Hkeyed k v Hv. rewrite contains_item, bool_decide_eq_true_2; [done|].
    rewrite (Hkeyed _ _ Hv). apply elem_of_dom. eauto.
  - intros Hne. rewrite decide_False by done. simpl.
    split; [done|]. split; [done|]. split; [|split].
    + intros v Hv.
      destruct (lookup_insert_loop_elem (elements accepted) (_contents s) v)
        as (v' & Hv' & Hk & Hl); [by apply elem_of_elements|].
      exists v'. by rewrite <-elem_of_elements.
    + intros Hinj v Hv.
      destruct (lookup_insert_loop_elem (elements accepted) (_contents s) v)
        as (v' & Hv' & Hk & Hl); [by apply elem_of_elements|].
      apply elem_of_elements in Hv'.
      by rewrite Hl, (Hinj v' v).
    + intros k Hk. apply lookup_insert_loop_other.
      intros v Hv. apply Hk. by apply elem_of_elements.
  - intros He. by rewrite decide_True.
  - apply Hnone. intros v Hv. case_decide as He.
    + destruct (decide (key v ∈ dom (_contents s))) as [|Hnot]; [done|].
      assert (v ∈ accepted) as Hacc' by (apply Hacc; done).
      rewrite He in Hacc'. set_solver.
    + simpl. rewrite dom_insert_loop.
      destruct (decide (key v ∈ dom (_contents s))) as [|Hnot]; [set_solver|].
      apply elem_of_union_r, elem_of_list_to_set, list_elem_of_fmap.
      exists v. split; [done|]. apply elem_of_elements, Hacc. done.
Qed.

(** C4 (as amended).  [_load_init] binds, for every key, the last item of
    the sequence that carries it and leaves every other key alone, so each
    item's key is bound afterwards; it emits nothing and leaves [dirty] as
    it was.  The one-item path [_load_item] stores the item under its key,
    emits nothing, and does set [dirty]. *)
Theorem load_init_spec s items :
  ∃ s',
    _load_init items s = (s', Ok tt)
    ∧ (∀ k, _contents s' !! k
            = match last (filter (λ v, key v = k) items) with
              | Some v => Some v
              | None => _contents s !! k
              end)
    ∧ (∀ v, v ∈ items → key v ∈ dom (_contents s'))
    ∧ events s' = events s
    ∧ dirty s' = dirty s
    ∧ (∀ item, ∃ s1,
         _load_item item s = (s1, Ok tt)
         ∧ _contents s1 = <[key item := item]> (_contents s)
         ∧ events s1 = events s
         ∧ dirty s1 = true).
Proof.
  eexists. split; [apply for_each_insert|]. simpl.
  split; [intros k; apply lookup_insert_loop|].
  split; [|split; [done|split; [done|]]].
  - intros v Hv. rewrite dom_insert_loop.
    apply elem_of_union_r, elem_of_list_to_set, list_elem_of_fmap. eauto.
  - intros item. by eexists.
Qed.

(** The deletion loop never adds a binding, whether or not it raises. *)
Lemma for_each_del_sub l s k v :
  _contents (for_each l (λ item, del_contents (key item)) s).1 !! k = Some v →
  _contents s !! k = Some v.
Proof.
  revert s. induction l as [|x l IH]; intros s; [done|].
  cbn [for_each]. unfold mbind, ST_bind, del_contents at 1.
  destruct (_contents s !! key x) eqn:Hx; [simpl|by simpl].
  intros Hk. apply IH in Hk. simpl in Hk.
  by apply lookup_delete_Some in Hk as [_ ?].
Qed.

Lemma for_each_del_fields l s :
  dirty (for_each l (λ item, del_contents (key item)) s).1 = dirty s
  ∧ events (for_each l (λ item, del_contents (key item)) s).1 = events s.
Proof.
  revert s. induction l as [|x l IH]; intros s; [done|].
  cbn [for_each]. unfold mbind, ST_bind, del_contents at 1 3.
  destruct (_contents s !! key x) eqn:Hx; [|done].
  apply (IH (set_contents (delete (key x)) s)).
Qed.

Lemma remove_contents_sub s items k v :
  _contents (remove items s).1 !! k = Some v → _contents s !! k = Some v.
Proof.
  unfold remove. erewrite bind_ok by apply comprehension_is_in. cbv zeta.
  case_decide; [done|]. unfold mbind at 1, ST_bind at 1.
  destruct (for_each _ _ s) as [s1 [[]|e]] eqn:Hloop; simpl;
    intros Hk; eapply for_each_del_sub; by rewrite Hloop.
Qed.

(** When every key of the list is bound and no key occurs twice, the
    deletion loop runs to its end. *)
Lemma for_each_del_ok l s :
  NoDup (key <$> l) →
  (∀ v, v ∈ l → key v ∈ dom (_contents s)) →
  for_each l (λ item, del_contents (key item)) s
  = (set_contents (λ m, foldl (λ m v, delete (key v) m) m l) s, Ok tt).
Proof.
  revert s. induction l as [|x l IH]; intros s Hnd Hin.
  - simpl. unfold mret, ST_ret. by rewrite set_contents_id.
  - rewrite fmap_cons in Hnd. apply NoDup_cons in Hnd as [Hx Hnd].
    cbn [for_each]. unfold mbind, ST_bind, del_contents at 1.
    assert (is_Some (_contents s !! key x)) as [y ->].
    { apply elem_of_dom, Hin. by left. }
    rewrite IH; [by destruct s|done|].
    intros v Hv. simpl. rewrite dom_delete_L.
    apply elem_of_difference. split; [apply Hin; by right|].
    intros Heq%elem_of_singleton. apply Hx, list_elem_of_fmap. eauto.
Qed.

(** A key that is not bound when its turn comes stops the loop. *)
Lemma for_each_del_missing l s v :
  v ∈ l → key v ∉ dom (_contents s) →
  ∃ s', for_each l (λ item, del_contents (key item)) s = (s', Raise KeyError).
Proof.
  revert s. induction l as [|x l IH]; intros s Hv Hk.
  - by apply elem_of_nil in Hv.
  - cbn [for_each]. unfold mbind, ST_bind, del_contents at 1.
    destruct (_contents s !! key x) as [y|] eqn:Hx; [|by eexists].
    apply IH.
    + apply elem_of_cons in Hv as [->|Hv]; [|done].
      destruct Hk. apply elem_of_dom. eauto.
    + simpl. rewrite dom_delete_L. set_solver.
Qed.

(** So does a key that occurs twice: the first deletion unbinds it. *)
Lemma for_each_del_twice l s :
  ¬ NoDup (key <$> l) →
  ∃ s', for_each l (λ item, del_contents (key item)) s = (s', Raise KeyError).
Proof.
  revert s. induction l as [|x l IH]; intros s Hnd.
  - destruct Hnd. constructor.
  - cbn [for_each]. unfold mbind, ST_bind, del_contents at 1.
    destruct (_contents s !! key x) as [y|] eqn:Hx; [|by eexists].
    destruct (decide (key x ∈ key <$> l)) as [Hin|Hnin].
    + apply list_elem_of_fmap in Hin as (v & Hkv & Hv).
      apply (for_each_del_missing l _ v); [done|].
      simpl. rewrite dom_delete_L, <-Hkv. set_solver.
    + apply IH. intros Hl. apply Hnd. rewrite fmap_cons.
      by apply NoDup_cons.
Qed.

Lemma lookup_delete_loop l (m : gmap K V) k :
  foldl (λ m v, delete (key v) m) m l !! k
  = if decide (k ∈ key <$> l) then None else m !! k.
Proof.
  revert m. induction l as [|x l IH]; intros m; [done|].
  simpl. rewrite IH.
  destruct (decide (k = key x)) as [->|Hne].
  - rewrite lookup_delete_eq, (decide_True (P:=key x ∈ key x :: _)) by left.
    by case_decide.
  - rewrite lookup_delete_ne by done.
    case_decide as Hin; case_decide as Hin'; try done.
    + destruct Hin'. by right.
    + apply elem_of_cons in Hin' as [?|?]; done.
Qed.

(** X16.  [remove] on inputs in which no two items that are in the library
    share a key: the items present are deleted and reported, once. *)
Lemma remove_distinct_keys s items :
  let removed : gset V :=
    list_to_set (filter (λ v, key v ∈ dom (_contents s)) items) in
  (∀ v v', v ∈ removed → v' ∈ removed → key v = key v' → v = v') →
  ∃ s',
    remove items s = (s', Ok removed)
    ∧ (∀ v, v ∈ removed ↔ v ∈ items ∧ __contains__ s (PItem v) = Ok true)
    ∧ (removed ≠ ∅ →
         dirty s' = true
         ∧ events s' = events s ++ [Emit Removed removed]
         ∧ (∀ v, v ∈ removed → _contents s' !! key v = None)
         ∧ (∀ k, (∀ v, v ∈ removed → key v ≠ k) →
              _contents s' !! k = _contents s !! k))
    ∧ (removed = ∅ → s' = s).
Proof.
  intros removed Hinj.
  assert (Hrem : ∀ v, v ∈ removed ↔ v ∈ items ∧ key v ∈ dom (_contents s)).
  { intros v. unfold removed.
    rewrite elem_of_list_to_set, list_elem_of_filter. tauto. }
  assert (Hloop :
    for_each (elements removed) (λ item, del_contents (key item)) s
    = (set_contents
         (λ m, foldl (λ m v, delete (key v) m) m (elements removed)) s, Ok tt)).
  { apply for_each_del_ok.
    - apply NoDup_fmap_2_strong; [|apply NoDup_elements].
      intros v v' Hv Hv'. apply Hinj; by apply elem_of_elements.
    - intros v Hv. by apply Hrem, elem_of_elements. }
  eexists. split; [|split; [|split]].
  - unfold remove. erewrite bind_ok by apply comprehension_is_in.
    fold removed. cbv zeta.
    instantiate (1 := if decide (removed = ∅) then s else _).
    case_decide; [done|]. by erewrite bind_ok by apply Hloop.
  - intros v. rewrite Hrem, contains_item.
    case_bool_decide; split; intros [? ?]; split; try done; congruence.
  - intros Hne. rewrite decide_False by done. simpl.
    split; [done|]. split; [done|]. split.
    + intros v Hv. rewrite lookup_delete_loop, decide_True; [done|].
      apply list_elem_of_fmap. exists v. by rewrite elem_of_elements.
    + intros k Hk. rewrite lookup_delete_loop, decide_False; [done|].
      intros (v & -> & Hv)%list_elem_of_fmap.
      apply elem_of_elements in Hv. by apply (Hk v).
  - intros He. by rewrite decide_True.
Qed.

(** [remove] on an input with two different items that share a key of the
    library: the second deletion of that key raises [KeyError]; by then the
    mapping has lost entries, but [dirty] is not set and nothing is
    emitted. *)
Lemma remove_shared_key s items v v' :
  v ∈ items → v' ∈ items → v ≠ v' → key v = key v' →
  key v ∈ dom (_contents s) →
  ∃ s',
    remove items s = (s', Raise KeyError)
    ∧ dirty s' = dirty s
    ∧ events s' = events s.
Proof.
  intros Hv Hv' Hne Hk Hin.
  set (removed := list_to_set (C:=gset V)
                    (filter (λ v, key v ∈ dom (_contents s)) items)).
  assert (Hrem : ∀ v, v ∈ removed ↔ v ∈ items ∧ key v ∈ dom (_contents s)).
  { intros x. unfold removed.
    rewrite elem_of_list_to_set, list_elem_of_filter. tauto. }
  destruct (for_each_del_twice (elements removed) s) as [s' Hs'].
  { intros Hnd. apply Hne.
    assert (v ∈ elements removed) as Hx by by apply elem_of_elements, Hrem.
    assert (v' ∈ elements removed) as Hx'
      by (apply elem_of_elements, Hrem; by rewrite <-Hk).
    apply list_elem_of_lookup in Hx as [i Hi], Hx' as [j Hj].
    assert (i = j) as ->; [|congruence].
    eapply NoDup_lookup; [done| |]; rewrite list_lookup_fmap.
    - by rewrite Hi.
    - by rewrite Hj, Hk. }
  exists s'. unfold remove. erewrite bind_ok by apply comprehension_is_in.
  fold removed. cbv zeta. rewrite decide_False by set_solver.
  erewrite bind_raise by apply Hs'. split; [done|].
  pose proof (for_each_del_fields (elements removed) s) as Hf.
  by rewrite Hs' in Hf.
Qed.

(** C8.  The keying invariant I1 survives [add], [remove], [_load_item] and
    [_load_init]; for [remove] also in the state an exception leaves. *)
Theorem keyed_preserved s items item :
  keyed s →
  keyed (add items s).1
  ∧ keyed (remove items s).1
  ∧ keyed (_load_item item s).1
  ∧ keyed (_load_init items s).1.
Proof.
  intros Hs. split; [|split; [|split]].
  - rewrite add_eq. cbv zeta. simpl. case_decide; [done|].
    intros k v. simpl. by apply keyed_insert_loop.
  - intros k v Hk. apply remove_contents_sub in Hk. by apply Hs.
  - intros k v. simpl. destruct (decide (key item = k)) as [<-|].
    + rewrite lookup_insert_eq. congruence.
    + rewrite lookup_insert_ne by done. apply Hs.
  - unfold _load_init. rewrite for_each_insert.
    intros k v. simpl. by apply keyed_insert_loop.
Qed.

(** C10 (as amended).  For a hashable argument membership never raises, and
    it is false when the argument is not a key of the mapping and has no
    [key] attribute; for an unhashable argument the dictionary lookup raises
    [TypeError], which the handler for [AttributeError] lets through. *)
Theorem contains_hashable s (o : pyobj K V) :
  hashable o = true →
  ¬ raises (__contains__ s o)
  ∧ (dict_contains (_contents s) o = Ok false →
     getattr_key o = Raise AttributeError →
     __contains__ s o = Ok false)
  ∧ (∀ n, __contains__ s (PUnhashable n) = Raise TypeError).
Proof.
  intros Ho. split; [|split].
  - intros [e He]. destruct o as [k|v|n|n]; try done.
    rewrite contains_key in He. done.
  - intros Hd Hk. unfold __contains__. by rewrite Hd; simpl; rewrite Hk.
  - done.
Qed.

(** [self in self.librarian.libraries.values()] *)
Lemma managed_iff s :
  managed s = true
  ↔ ∃ lb, librarian s = Some lb
         ∧ ∃ name, libraries lb !! name = Some (self_id s).
Proof.
  unfold managed. destruct (librarian s) as [lb|]; [|naive_solver].
  rewrite bool_decide_eq_true, list_elem_of_fmap. split.
  - intros ([name id] & Hid & Hin). apply elem_of_map_to_list in Hin.
    simpl in Hid. subst. eauto.
  - intros (lb' & [= <-] & name & Hname).
    exists (name, self_id s). split; [done|]. by apply elem_of_map_to_list.
Qed.


(** ** Further properties of the library *)

Lemma filter_all {A} (P : A → Prop) `{∀ x, Decision (P x)} (l : list A) :
  (∀ x, x ∈ l → P x) → filter P l = l.
Proof.
  induction l as [|x l IH]; intros Hl; [done|].
  rewrite filter_cons, decide_True by (apply Hl; by left).
  f_equal. apply IH. intros y Hy. apply Hl. by right.
Qed.

Lemma getitem_key s k :
  __getitem__ s (PKey k)
  = match _contents s !! k with
    | Some v => Ok v
    | None => Raise KeyError
    end.
Proof. reflexivity. Qed.

(** X1.  Lookup and membership agree: [self[k]] returns an item exactly when
    [k in self], and raises [KeyError] exactly when it is not; an object
    with a key is in the library exactly when the lookup of its key
    succeeds, whatever object is stored there; and in a keyed library the
    item a lookup returns carries the key it was looked up by. *)
Theorem getitem_contains s k :
  ((∃ v, __getitem__ s (PKey k) = Ok v) ↔ __contains__ s (PKey k) = Ok true)
  ∧ (__getitem__ s (PKey k) = Raise KeyError
     ↔ __contains__ s (PKey k) = Ok false)
  ∧ (∀ v, __contains__ s (PItem v) = Ok true
          ↔ ∃ v', __getitem__ s (PKey (key v)) = Ok v')
  ∧ (keyed s → ∀ v, __getitem__ s (PKey k) = Ok v →
       key v = k ∧ __contains__ s (PItem v) = Ok true).
Proof.
  assert (Hk : ∀ k', (∃ v, __getitem__ s (PKey k') = Ok v)
                     ↔ k' ∈ dom (_contents s)).
  { intros k'. rewrite getitem_key, elem_of_dom.
    destruct (_contents s !! k') as [v|]; split.
    - eauto.
    - eauto.
    - by intros [v ?].
    - by intros [v ?]. }
  split; [|split; [|split]].
  - rewrite Hk, contains_key. case_bool_decide; split; try done; congruence.
  - rewrite contains_key, getitem_key.
    case_bool_decide as Hin; rewrite elem_of_dom in Hin.
    + destruct Hin as [v ->]. split; congruence.
    + destruct (_contents s !! k) as [v|]; [|split; congruence].
      destruct Hin. eauto.
  - intros v. rewrite Hk, contains_item.
    case_bool_decide; split; try done; congruence.
  - intros Hkeyed v. rewrite getitem_key.
    destruct (_contents s !! k) as [v'|] eqn:Hv; [|done].
    intros [= ->]. pose proof (Hkeyed _ _ Hv) as Hkv. split; [done|].
    rewrite contains_item, bool_decide_eq_true_2; [done|].
    rewrite Hkv. apply elem_of_dom. eauto.
Qed.

(** X2.  [add] never replaces what the library holds: every key bound
    before is bound to the same item afterwards.  The keys bound afterwards
    are those bound before and the keys of the input, so the library never
    shrinks. *)
Theorem add_never_overwrites s items :
  (∀ k, k ∈ dom (_contents s) →
        _contents (add items s).1 !! k = _contents s !! k)
  ∧ dom (_contents (add items s).1)
    = dom (_contents s) ∪ list_to_set (key <$> items)
  ∧ __len__ s ≤ __len__ (add items s).1.
Proof.
  rewrite add_eq. cbv zeta. cbn [fst].
  set (accepted := list_to_set (C:=gset V)
                     (filter (λ v, key v ∉ dom (_contents s)) items)).
  assert (Hacc : ∀ v, v ∈ accepted ↔ v ∈ items ∧ key v ∉ dom (_contents s)).
  { intros v. unfold accepted.
    rewrite elem_of_list_to_set, list_elem_of_filter. tauto. }
  assert (Hdom :
    dom (_contents (if decide (accepted = ∅) then s
                    else record (Emit Added accepted)
                           (set_dirty true
                              (set_contents
                                 (λ m, foldl (λ m v, <[key v := v]> m) m
                                         (elements accepted)) s))))
    = dom (_contents s) ∪ list_to_set (key <$> items)).
  { apply set_eq. intros k. case_decide as He; simpl.
    - rewrite elem_of_union, elem_of_list_to_set, list_elem_of_fmap.
      split; [by left|]. intros [?|(v & -> & Hv)]; [done|].
      destruct (decide (key v ∈ dom (_contents s))) as [|Hn]; [done|].
      assert (v ∈ accepted) as Hin by by apply Hacc.
      rewrite He in Hin. by apply not_elem_of_empty in Hin.
    - rewrite dom_insert_loop, !elem_of_union, !elem_of_list_to_set,
        !list_elem_of_fmap. split.
      + intros [?|(v & -> & Hv)]; [by left|].
        apply elem_of_elements, Hacc in Hv as [? _]. right. eauto.
      + intros [?|(v & -> & Hv)]; [by left|].
        destruct (decide (key v ∈ dom (_contents s))) as [|Hn]; [by left|].
        right. exists v. split; [done|]. by apply elem_of_elements, Hacc. }
  split; [|split].
  - intros k Hk. simpl. case_decide; [done|]. simpl.
    apply lookup_insert_loop_other. intros v Hv <-.
    by apply elem_of_elements, Hacc in Hv as [_ ?].
  - exact Hdom.
  - unfold __len__. rewrite <-!(size_dom (D:=gset K)).
    apply subseteq_size. rewrite Hdom. apply union_subseteq_l.
Qed.

(** What [changed] computes, in one piece. *)
Lemma changed_eq s items :
  changed items s
  = match items with
    | [] => (s, Ok tt)
    | _ =>
        if managed s then (record (LibrarianChanged items) s, Ok tt)
        else
          let present : gset V :=
            list_to_set (filter (λ v, key v ∈ dom (_contents s)) items) in
          if decide (present = ∅) then (s, Ok tt)
          else (record (Emit Changed present) (set_dirty true s), Ok tt)
    end.
Proof.
  destruct items as [|v0 l0]; [done|].
  unfold changed. unfold mbind at 1, ST_bind at 1, gets.
  destruct (managed s); [done|].
  erewrite bind_ok by apply comprehension_is_in. cbv zeta.
  case_decide; [done|]. unfold _changed. by rewrite decide_False by done.
Qed.

(** The deletion loop raises nothing but [KeyError]. *)
Lemma for_each_del_exn l s s' e :
  for_each l (λ item, del_contents (key item)) s = (s', Raise e) →
  e = KeyError.
Proof.
  revert s. induction l as [|x l IH]; intros s; [done|].
  cbn [for_each]. unfold mbind, ST_bind, del_contents at 1.
  destruct (_contents s !! key x); [apply IH|congruence].
Qed.

(** The three ways [remove] can end. *)
Lemma remove_shape s items :
  let removed : gset V :=
    list_to_set (filter (λ v, key v ∈ dom (_contents s)) items) in
  (removed = ∅ ∧ remove items s = (s, Ok ∅))
  ∨ (removed ≠ ∅ ∧ ∃ s',
       remove items s = (s', Raise KeyError)
       ∧ dirty s' = dirty s ∧ events s' = events s)
  ∨ (removed ≠ ∅ ∧ ∃ s',
       remove items s = (s', Ok removed)
       ∧ dirty s' = true ∧ events s' = events s ++ [Emit Removed removed]).
Proof.
  intros removed.
  destruct (decide (removed = ∅)) as [He|He].
  { left. split; [done|]. unfold remove.
    erewrite bind_ok by apply comprehension_is_in. fold removed. cbv zeta.
    rewrite decide_True by done. by rewrite He. }
  right.
  assert (Hrem :
    remove items s
    = match for_each (elements removed) (λ item, del_contents (key item)) s with
      | (s1, Ok _) =>
          (record (Emit Removed removed) (set_dirty true s1), Ok removed)
      | (s1, Raise e) => (s1, Raise e)
      end).
  { unfold remove. erewrite bind_ok by apply comprehension_is_in.
    fold removed. cbv zeta. rewrite decide_False by done.
    unfold mbind at 1, ST_bind at 1.
    by destruct (for_each _ _ s) as [s1 [[]|e]]. }
  rewrite Hrem.
  pose proof (for_each_del_fields (elements removed) s) as [Hd Hev].
  destruct (for_each _ _ s) as [s1 [[]|e]] eqn:Hloop; simpl in Hd, Hev.
  - right. split; [done|]. eexists. split; [done|]. simpl. by rewrite Hev.
  - left. split; [done|]. exists s1.
    by rewrite (for_each_del_exn _ _ _ _ Hloop).
Qed.

(** X3.  Adding items the library does not hold, no two of them with the
    same key, and removing them again restores the mapping; the two calls
    return the same set, one [added] and one [removed] signal carry it, and
    the library is left dirty. *)
Theorem add_then_remove s items :
  items ≠ [] →
  (∀ v, v ∈ items → key v ∉ dom (_contents s)) →
  (∀ v v', v ∈ items → v' ∈ items → key v = key v' → v = v') →
  ∃ s1 s2,
    add items s = (s1, Ok (list_to_set items))
    ∧ remove items s1 = (s2, Ok (list_to_set items))
    ∧ _contents s2 = _contents s
    ∧ events s2
      = events s ++ [Emit Added (list_to_set items);
                     Emit Removed (list_to_set items)]
    ∧ dirty s2 = true.
Proof.
  intros Hne Hnew Hinj. set (S := list_to_set (C:=gset V) items).
  assert (HS : ∀ v, v ∈ S ↔ v ∈ items)
    by (intros v; apply elem_of_list_to_set).
  assert (HSne : S ≠ ∅).
  { destruct items as [|v0 l0]; [done|].
    intros He. assert (v0 ∈ S) as Hin by (apply HS; by left).
    rewrite He in Hin. by apply not_elem_of_empty in Hin. }
  set (s1 := record (Emit Added S)
               (set_dirty true
                  (set_contents
                     (λ m, foldl (λ m v, <[key v := v]> m) m (elements S)) s))).
  assert (Hadd : add items s = (s1, Ok S)).
  { rewrite add_eq. cbv zeta. rewrite filter_all by done. fold S.
    by rewrite decide_False by done. }
  assert (Hin1 : ∀ v, v ∈ items → key v ∈ dom (_contents s1)).
  { intros v Hv. simpl. rewrite dom_insert_loop.
    apply elem_of_union_r, elem_of_list_to_set, list_elem_of_fmap.
    exists v. split; [done|]. by apply elem_of_elements, HS. }
  assert (Hloop :
    for_each (elements S) (λ item, del_contents (key item)) s1
    = (set_contents (λ m, foldl (λ m v, delete (key v) m) m (elements S)) s1,
       Ok tt)).
  { apply for_each_del_ok.
    - apply NoDup_fmap_2_strong; [|apply NoDup_elements].
      intros v v' Hv%elem_of_elements%HS Hv'%elem_of_elements%HS.
      by apply Hinj.
    - intros v Hv%elem_of_elements%HS. by apply Hin1. }
  eexists s1, _. split; [exact Hadd|]. split; [|split; [|split]].
  - unfold remove. erewrite bind_ok by apply comprehension_is_in.
    rewrite filter_all by done. fold S. cbv zeta.
    rewrite decide_False by done. by erewrite bind_ok by apply Hloop.
  - simpl. apply map_eq. intros k. rewrite lookup_delete_loop.
    case_decide as Hk.
    + apply list_elem_of_fmap in Hk as (v & -> & Hv%elem_of_elements%HS).
      symmetry. by apply not_elem_of_dom, Hnew.
    + apply lookup_insert_loop_other. intros v Hv <-. apply Hk.
      by apply list_elem_of_fmap_2.
  - simpl. by rewrite <-app_assoc.
  - done.
Qed.

(** X4.  No method of the library other than [save] ever clears [dirty]:
    a dirty library is still dirty after [add], [remove] (however it ends),
    [changed], [_load_item] and [_load_init]. *)
Theorem dirty_stays s items item :
  dirty s = true →
  dirty (add items s).1 = true
  ∧ dirty (remove items s).1 = true
  ∧ dirty (changed items s).1 = true
  ∧ dirty (_load_item item s).1 = true
  ∧ dirty (_load_init items s).1 = true.
Proof.
  intros Hd. split; [|split; [|split; [|split]]].
  - rewrite add_eq. cbv zeta. cbn [fst]. by case_decide.
  - destruct (remove_shape s items)
      as [[_ ->]|[(_ & s' & -> & Hd' & _)|(_ & s' & -> & Hd' & _)]];
      simpl; congruence.
  - rewrite changed_eq. destruct items; [done|].
    destruct (managed s); [done|]. cbv zeta. by case_decide.
  - done.
  - unfold _load_init. by rewrite for_each_insert.
Qed.

(** X5.  Signals are only ever appended, one per call at most, and never
    with an empty set: this holds of [add], of [remove] (however it ends)
    and of [changed]; the loading methods [_load_item] and [_load_init] emit
    nothing. *)
Theorem signals_discipline s items item :
  emitted_one_at_most s (add items s).1
  ∧ emitted_one_at_most s (remove items s).1
  ∧ emitted_one_at_most s (changed items s).1
  ∧ events (_load_item item s).1 = events s
  ∧ events (_load_init items s).1 = events s.
Proof.
  assert (Hnone : emitted_one_at_most s s).
  { exists []. rewrite app_nil_r. split; [done|]. split; [simpl; lia|].
    by intros sg X ?%elem_of_nil. }
  assert (Hone : ∀ s' sg (X : gset V),
            X ≠ ∅ → events s' = events s ++ [Emit sg X] →
            emitted_one_at_most s s').
  { intros s' sg X HX He. exists [Emit sg X]. split; [done|].
    split; [simpl; lia|]. by intros sg' X' [= -> ->]%list_elem_of_singleton. }
  split; [|split; [|split; [|split]]].
  - rewrite add_eq. cbv zeta. cbn [fst]. case_decide; [done|].
    by eapply Hone.
  - destruct (remove_shape s items)
      as [[_ ->]|[(_ & s' & -> & _ & He)|(Hne & s' & -> & _ & He)]]; simpl.
    + done.
    + exists []. rewrite app_nil_r. split; [done|]. split; [simpl; lia|].
      by intros sg X ?%elem_of_nil.
    + by eapply Hone.
  - rewrite changed_eq. destruct items as [|v0 l0]; [done|].
    destruct (managed s); simpl.
    + exists [LibrarianChanged (v0 :: l0)]. split; [done|].
      split; [simpl; lia|]. by intros sg X [=]%list_elem_of_singleton.
    + case_decide; [done|]. by eapply Hone.
  - done.
  - unfold _load_init. by rewrite for_each_insert.
Qed.


(** X7.  In a keyed library the views agree: the keys are the keys of the
    values, in the same order; no two values share a key; there are as many
    values as [len] says; and a value is listed exactly when the lookup of
    its key returns it. *)
Theorem views_agree s :
  keyed s →
  keys s = key <$> values s
  ∧ NoDup (key <$> values s)
  ∧ length (values s) = __len__ s
  ∧ (∀ v, v ∈ values s ↔ __getitem__ s (PKey (key v)) = Ok v)
  ∧ __iter__ s = values s ∧ get_content s = values s.
Proof.
  intros Hkeyed.
  assert (Hkv : keys s = key <$> values s).
  { unfold keys, values, iteritems. rewrite <-list_fmap_compose.
    apply list_fmap_ext. intros i [k v] Hi. simpl. symmetry.
    apply Hkeyed, elem_of_map_to_list, list_elem_of_lookup. eauto. }
  split; [done|]. split; [|split; [|split]].
  - rewrite <-Hkv. apply NoDup_fst_map_to_list.
  - unfold values, iteritems, __len__.
    by rewrite length_fmap, length_map_to_list.
  - intros v. unfold values, iteritems. rewrite getitem_key, list_elem_of_fmap.
    split.
    + intros ([k v'] & -> & Hin%elem_of_map_to_list). simpl.
      by rewrite (Hkeyed _ _ Hin), Hin.
    + destruct (_contents s !! key v) as [v'|] eqn:Hv; [|done].
      intros [= ->]. exists (key v, v). split; [done|].
      by apply elem_of_map_to_list.
  - done.
Qed.


(** Inserting the values of a keyed mapping one by one rebuilds it. *)
Lemma insert_values_keyed (m : gmap K V) :
  (∀ k v, m !! k = Some v → key v = k) →
  foldl (λ m v, <[key v := v]> m) ∅ (map_to_list m).*2 = m.
Proof.
  intros Hm. apply map_eq. intros k. rewrite lookup_insert_loop.
  destruct (last _) as [v|] eqn:Hlast.
  - apply last_Some_elem_of, list_elem_of_filter in Hlast as [Hk Hv].
    apply list_elem_of_fmap in Hv as ([k' v'] & -> & Hin%elem_of_map_to_list).
    simpl in *. by rewrite <-Hk, (Hm _ _ Hin).
  - apply last_None in Hlast. rewrite lookup_empty.
    destruct (m !! k) as [v|] eqn:Hv; [|done].
    destruct (filter_nil_not_elem_of _ _ v Hlast); [by apply Hm|].
    apply list_elem_of_fmap. exists (k, v). split; [done|].
    by apply elem_of_map_to_list.
Qed.

(** X17.  What [_load_init] restored is not added again: an [add] of the
    same items right after accepts nothing, emits nothing and leaves the
    library as the restoration left it. *)
Theorem add_after_load_init s items :
  add items (_load_init items s).1 = ((_load_init items s).1, Ok ∅).
Proof.
  unfold _load_init. rewrite for_each_insert. cbn [fst]. rewrite add_eq.
  cbv zeta. rewrite filter_none; [by rewrite list_to_set_nil, decide_True|].
  intros v Hv Hnot. apply Hnot. simpl. rewrite dom_insert_loop.
  apply elem_of_union_r, elem_of_list_to_set. by apply list_elem_of_fmap_2.
Qed.

(** A key that no item of the list carries is left alone by the deletion
    loop, however the loop ends. *)
Lemma for_each_del_other l s k :
  (∀ v, v ∈ l → key v ≠ k) →
  _contents (for_each l (λ item, del_contents (key item)) s).1 !! k
  = _contents s !! k.
Proof.
  revert s. induction l as [|x l IH]; intros s Hl; [done|].
  cbn [for_each]. unfold mbind, ST_bind, del_contents at 1.
  destruct (_contents s !! key x) as [y|] eqn:Hx; [|done].
  rewrite IH by (intros v Hv; apply Hl; by right).
  simpl. apply lookup_delete_ne. apply Hl. by left.
Qed.

(** X19.  However [remove] ends, normally or with [KeyError], it has not
    touched a key that no input item carries, and it has bound no key: what
    the mapping holds afterwards it held before. *)
Theorem remove_only_input_keys s items :
  (∀ k, k ∉ key <$> items →
        _contents (remove items s).1 !! k = _contents s !! k)
  ∧ (∀ k v, _contents (remove items s).1 !! k = Some v →
            _contents s !! k = Some v).
Proof.
  split; [|intros k v0; apply remove_contents_sub].
  intros k Hk. unfold remove.
  erewrite bind_ok by apply comprehension_is_in. cbv zeta.
  case_decide; [done|]. unfold mbind at 1, ST_bind at 1.
  assert (Hloop := for_each_del_other
    (elements (list_to_set (C:=gset V)
       (filter (λ v, key v ∈ dom (_contents s)) items))) s k).
  destruct (for_each _ _ s) as [s1 [[]|e]]; simpl in *; apply Hloop;
    intros v0 Hv%elem_of_elements%elem_of_list_to_set%list_elem_of_filter <-;
    apply Hk, list_elem_of_fmap_2; tauto.
Qed.

End LibraryFacts.

Section PersistenceFacts.
Context {K V : Type} `{Countable K} `{Countable V} `{!HasKey K V}.
Variable load_audio_files : bytes → option (list V).
Variable dump_audio_files : list V → option bytes.
Variable tmp_location : string → string.
Implicit Types (s : Library K V) (w : World) (φ : Faults).

(** What [_load_items] computes, case by case. *)
Lemma load_items_eq φ fname w :
  _load_items load_audio_files φ fname w
  = if read_denied φ then (log (PrintW (Some fname)) w, Ok [])
    else match files w !! fname with
         | None => (log (PrintW (Some fname)) w, Ok [])
         | Some data =>
             match load_audio_files data with
             | Some items => (w, Ok items)
             | None =>
                 let w1 := log (PrintExc SerializationError) w in
                 let aside := fname +:+ ".not-valid" in
                 match copy_fails φ with
                 | None => (set_files (<[aside := data]>) w1, Ok [])
                 | Some CopyRefused =>
                     (log (PrintExc EnvironmentError) w1, Ok [])
                 | Some (CopyTruncated n) =>
                     (log (PrintExc EnvironmentError)
                        (set_files (<[aside := take n data]>) w1), Ok [])
                 end
             end
         end.
Proof.
  unfold _load_items, attempt, read_file. run.
  destruct (read_denied φ); [done|].
  destruct (files w !! fname) as [data|] eqn:Hf; [|done].
  destruct (load_audio_files data) as [items|]; [done|]. simpl.
  unfold try_catch, shutil_copy. simpl. rewrite Hf.
  by destruct (copy_fails φ) as [[|n]|].
Qed.

(** C7.  [load] always returns normally, records the path as the default
    target of later saves, emits nothing and leaves [dirty] alone.  When the
    file cannot be read [_load_items] gives no items, the mapping and the
    files stay as they are and a warning is logged.  When the bytes read are
    rejected by the decoder [_load_items] gives no items and the mapping
    stays as it is; the bytes are copied to [<path>.not-valid] when the copy
    succeeds, no other file is touched either way, and a failed copy is
    logged only.  When they decode, the items go through [_load_init] and
    the world is unchanged. *)
Theorem load_spec φ fname s w :
  ∃ s' w',
    load load_audio_files φ fname (s, w) = ((s', w'), Ok tt)
    ∧ filename s' = Some fname
    ∧ events s' = events s
    ∧ dirty s' = dirty s
    ∧ (read_denied φ = true ∨ files w !! fname = None →
         _load_items load_audio_files φ fname w = (w', Ok [])
         ∧ _contents s' = _contents s
         ∧ files w' = files w
         ∧ console w' = console w ++ [PrintW (Some fname)])
    ∧ (∀ data,
         read_denied φ = false → files w !! fname = Some data →
         (load_audio_files data = None →
            _load_items load_audio_files φ fname w = (w', Ok [])
            ∧ _contents s' = _contents s
            ∧ (copy_fails φ = None →
                 files w' !! (fname +:+ ".not-valid") = Some data
                 ∧ console w' = console w ++ [PrintExc SerializationError])
            ∧ (copy_fails φ ≠ None →
                 console w'
                 = console w ++ [PrintExc SerializationError;
                                 PrintExc EnvironmentError])
            ∧ (∀ p, p ≠ fname +:+ ".not-valid" →
                 files w' !! p = files w !! p))
         ∧ (∀ items, load_audio_files data = Some items →
              _load_init items (set_filename (Some fname) s) = (s', Ok tt)
              ∧ w' = w)).
Proof.
  pose proof (load_items_eq φ fname w) as Hitems.
  unfold load. unfold mbind at 1 2, ST_bind at 1 2, on_fst at 1, on_snd, modify.
  destruct (_load_items load_audio_files φ fname w) as [w' [items|e]] eqn:Hrun.
  2: { exfalso. revert Hitems. clear.
       destruct (read_denied φ); [done|].
       destruct (files w !! fname); [|done].
       destruct (load_audio_files _); [done|]. simpl.
       by destruct (copy_fails φ) as [[|n]|]. }
  unfold on_fst, _load_init. rewrite for_each_insert.
  eexists _, w'. split; [done|]. simpl.
  split; [done|]. split; [done|]. split; [done|]. split.
  - intros Hread.
    assert ((w', Ok items)
            = (log (PrintW (Some fname)) w, @Ok (list V) [])) as Heq.
    { rewrite Hitems. destruct (read_denied φ); [done|].
      destruct Hread as [ ? | -> ]; done. }
    by injection Heq as -> ->.
  - intros data Hr Hf. rewrite Hr, Hf in Hitems. split.
    + intros Hdec. rewrite Hdec in Hitems. simpl in Hitems.
      destruct (copy_fails φ) as [[|n]|] eqn:Hcopy;
        (injection Hitems as -> ->; simpl;
         (split; [done|]); (split; [done|]); (split; [|split]);
         [ first [done | intros _; split; [by rewrite lookup_insert_eq|done]]
         | first [done | intros _; by rewrite <-app_assoc]
         | intros p Hp; by rewrite ?lookup_insert_ne ]).
    + intros items' Hdec. rewrite Hdec in Hitems.
      injection Hitems as -> ->. split; [apply for_each_insert|done].
Qed.

(** The body of the [try] statement of [save], case by case. *)
Lemma write_library_eq φ p s w :
  write_library dump_audio_files tmp_location φ (Some p) (s, w)
  = if mkdir_fails φ then ((s, w), Raise EnvironmentError)
    else
      let w1 := add_dir (os_path_dirname p) w in
      if tmp_fails φ then ((s, w1), Raise EnvironmentError)
      else
        let tmp := tmp_location p in
        let w2 := set_files (<[tmp := []]>) w1 in
        match dump_audio_files (get_content s) with
        | None => ((s, w2), Raise SerializationError)
        | Some data =>
            match write_fails φ with
            | Some n =>
                ((s, set_files (<[tmp := take n data]>) w2),
                 Raise EnvironmentError)
            | None =>
                let w3 := set_files (<[tmp := data]>) w2 in
                if commit_fails φ then ((s, w3), Raise EnvironmentError)
                else ((s, set_files (λ fs, <[p := data]> (delete tmp fs)) w3),
                      Ok tt)
            end
        end.
Proof.
  unfold write_library, atomic_save, mkdir, on_snd, on_fst, gets, eval, raise,
    modify.
  run. destruct (mkdir_fails φ); [done|]. destruct (tmp_fails φ); [done|].
  simpl. destruct (dump_audio_files (get_content s)) as [data|]; [|done].
  simpl. destruct (write_fails φ) as [n|]; [done|].
  by destruct (commit_fails φ).
Qed.

Lemma write_library_none φ s w :
  write_library dump_audio_files tmp_location φ None (s, w)
  = ((s, w), Raise TypeError).
Proof. reflexivity. Qed.

(** [save] in terms of the outcome of its [try] body. *)
Lemma save_eq φ fname s w :
  let target := if fname is None then filename s else fname in
  save dump_audio_files tmp_location φ fname (s, w)
  = match write_library dump_audio_files tmp_location φ target (s, w) with
    | (σ, Ok _) => ((set_dirty false σ.1, σ.2), Ok tt)
    | (σ, Raise SerializationError) =>
        ((σ.1, log (PrintExc SerializationError) σ.2), Ok tt)
    | (σ, Raise EnvironmentError) => ((σ.1, log (PrintW target) σ.2), Ok tt)
    | (σ, Raise e) => (σ, Raise e)
    end.
Proof.
  intros target. unfold save, attempt, on_fst, on_snd, gets, modify, raise.
  run. fold target.
  by destruct (write_library _ _ φ target (s, w)) as [[s1 w1] [[]|[]]].
Qed.

(** C5.  [save] touches nothing of the library but [dirty].  When the body
    of its [try] statement completes, which it does exactly when the
    directory can be made, the temporary file created, the contents encoded
    and the bytes written and committed, [dirty] is cleared.  When the body
    raises [SerializationError] (the encoder refused) or [EnvironmentError],
    [save] returns normally, adds one line to the log and leaves [dirty] as
    it was.  With a target path [save] never raises. *)
Theorem save_dirty_spec φ fname s w :
  let target := if fname is None then filename s else fname in
  let body := write_library dump_audio_files tmp_location φ target (s, w) in
  let after := save dump_audio_files tmp_location φ fname (s, w) in
  (_contents after.1.1 = _contents s
   ∧ events after.1.1 = events s
   ∧ filename after.1.1 = filename s)
  ∧ (body.2 = Ok tt →
       after.2 = Ok tt ∧ dirty after.1.1 = false ∧ after.1.2 = body.1.2)
  ∧ (body.2 = Raise SerializationError →
       after.2 = Ok tt ∧ dirty after.1.1 = dirty s
       ∧ after.1.2 = log (PrintExc SerializationError) body.1.2)
  ∧ (body.2 = Raise EnvironmentError →
       after.2 = Ok tt ∧ dirty after.1.1 = dirty s
       ∧ after.1.2 = log (PrintW target) body.1.2)
  ∧ (body.2 ≠ Ok tt → dirty after.1.1 = dirty s)
  ∧ (body.2 = Ok tt
     ↔ ∃ p data,
         target = Some p ∧ mkdir_fails φ = false ∧ tmp_fails φ = false
         ∧ dump_audio_files (get_content s) = Some data
         ∧ write_fails φ = None ∧ commit_fails φ = false)
  ∧ (body.2 = Raise SerializationError
     ↔ ∃ p,
         target = Some p ∧ mkdir_fails φ = false ∧ tmp_fails φ = false
         ∧ dump_audio_files (get_content s) = None)
  ∧ (∀ p, target = Some p → after.2 = Ok tt).
Proof.
  clear load_audio_files.
  intros target body after. unfold after. rewrite save_eq. fold target body.
  unfold body. destruct target as [p|].
  - rewrite write_library_eq.
    destruct (mkdir_fails φ), (tmp_fails φ),
      (dump_audio_files (get_content s)) as [data|],
      (write_fails φ) as [n|], (commit_fails φ);
      simpl; repeat split; try done; try naive_solver.
  - rewrite write_library_none. simpl. repeat split; try done; naive_solver.
Qed.

(** C6.  Against the model of [atomic_save]: during a [save] to [p], every
    value the file table takes, and the final one, holds at [p] either what
    was there before the call or the complete encoded contents; the latter
    only when the whole write succeeds.  A save that fails in any way, the
    encoder refusing included, leaves the file at [p] as it was. *)
Theorem save_atomic φ fname s w p :
  (if fname is None then filename s else fname) = Some p →
  tmp_location p ≠ p →
  let body := write_library dump_audio_files tmp_location φ (Some p) (s, w) in
  let w' := (save dump_audio_files tmp_location φ fname (s, w)).1.2 in
  ∃ seen,
    history w' = history w ++ seen
    ∧ (seen = [] → files w' = files w)
    ∧ (∀ fs, last seen = Some fs → files w' = fs)
    ∧ (body.2 ≠ Ok tt →
         files w' !! p = files w !! p
         ∧ Forall (λ fs, fs !! p = files w !! p) seen)
    ∧ (body.2 = Ok tt →
         ∃ data,
           dump_audio_files (get_content s) = Some data
           ∧ files w' !! p = Some data
           ∧ Forall (λ fs, fs !! p = files w !! p ∨ fs !! p = Some data) seen).
Proof.
  clear load_audio_files.
  intros Htarget Htmp body w'. unfold w', body. rewrite save_eq, Htarget.
  rewrite write_library_eq.
  destruct (mkdir_fails φ), (tmp_fails φ),
    (dump_audio_files (get_content s)) as [data|],
    (write_fails φ) as [n|], (commit_fails φ);
    simpl; rewrite <-?app_assoc; simpl;
    (eexists; split; [try reflexivity; by rewrite app_nil_r|]);
    (split; [done|]); (split; [by intros ? [= <-]|]);
    (split; [intros Hne; try done|intros Heq; try done]);
    try (split; [by rewrite ?lookup_insert_ne|
                 repeat constructor; by rewrite ?lookup_insert_ne]).
  exists data. split; [done|]. split; [by rewrite lookup_insert_eq|].
  rewrite !Forall_cons, Forall_nil.
  split; [left; by rewrite lookup_insert_ne|].
  split; [left; by rewrite !lookup_insert_ne|].
  split; [right; by rewrite lookup_insert_eq|done].
Qed.

(** ** Further properties of persistence *)

Lemma append_ne (a b : string) : b ≠ "" → a +:+ b ≠ a.
Proof.
  intros Hb. induction a as [|c a IH]; simpl; [done|].
  intros [= Ha]. by apply IH.
Qed.

(** [load] in terms of [_load_items]. *)
Lemma load_eq φ fname s w :
  load load_audio_files φ fname (s, w)
  = match _load_items load_audio_files φ fname w with
    | (w', Ok items) =>
        ((set_contents (λ m, foldl (λ m v, <[key v := v]> m) m items)
            (set_filename (Some fname) s), w'), Ok tt)
    | (w', Raise e) => ((set_filename (Some fname) s, w'), Raise e)
    end.
Proof.
  unfold load. unfold mbind at 1 2, ST_bind at 1 2, on_fst at 1, on_snd, modify.
  destruct (_load_items load_audio_files φ fname w) as [w' [items|e]]; [|done].
  unfold on_fst, _load_init. by rewrite for_each_insert.
Qed.

(** X9.  Round trip: when the codec gives back the items it encoded, saving
    a keyed library without faults and loading the file into a library just
    made yields the same mapping; the loaded library is clean, has emitted
    nothing, and remembers the path. *)
Theorem save_load_roundtrip s w p data id name :
  keyed s →
  tmp_location p ≠ p →
  dump_audio_files (get_content s) = Some data →
  load_audio_files data = Some (get_content s) →
  let saved := save dump_audio_files tmp_location no_faults (Some p) (s, w) in
  let loaded :=
    load load_audio_files no_faults p (new_library id name, saved.1.2) in
  saved.2 = Ok tt
  ∧ dirty saved.1.1 = false
  ∧ files saved.1.2 !! p = Some data
  ∧ loaded.2 = Ok tt
  ∧ _contents loaded.1.1 = _contents s
  ∧ dirty loaded.1.1 = false
  ∧ events loaded.1.1 = []
  ∧ filename loaded.1.1 = Some p.
Proof.
  intros Hkeyed Htmp Hdump Hload saved loaded.
  assert (Hsaved : saved
    = ((set_dirty false s,
        set_files (λ fs, <[p := data]> (delete (tmp_location p) fs))
          (set_files (<[tmp_location p := data]>)
             (set_files (<[tmp_location p := []]>)
                (add_dir (os_path_dirname p) w)))), Ok tt)).
  { unfold saved. rewrite save_eq. cbv zeta. rewrite write_library_eq.
    simpl. by rewrite Hdump. }
  assert (Hfile : files saved.1.2 !! p = Some data).
  { rewrite Hsaved. simpl. by rewrite lookup_insert_eq. }
  assert (Hloaded : loaded
    = ((set_contents
          (λ m, foldl (λ m v, <[key v := v]> m) m (get_content s))
          (set_filename (Some p) (new_library id name)), saved.1.2), Ok tt)).
  { unfold loaded. rewrite load_eq, load_items_eq. simpl.
    by rewrite Hfile, Hload. }
  rewrite Hloaded. rewrite Hsaved at 1 2. simpl.
  split; [done|]. split; [done|]. split; [exact Hfile|].
  split; [done|]. split; [|done].
  by apply insert_values_keyed.
Qed.

(** X10.  What [save] leaves alone.  Without any path (none given, none
    remembered) it raises [TypeError] and changes nothing.  With a target,
    whatever fails, no file other than the target and its temporary file is
    created, changed or deleted. *)
Theorem save_touches_only φ fname s w :
  let target := if fname is None then filename s else fname in
  let after := save dump_audio_files tmp_location φ fname (s, w) in
  (target = None → after = ((s, w), Raise TypeError))
  ∧ (∀ p q, target = Some p → q ≠ p → q ≠ tmp_location p →
            files after.1.2 !! q = files w !! q).
Proof.
  clear load_audio_files.
  intros target after. unfold after. rewrite save_eq. fold target. split.
  - intros ->. by rewrite write_library_none.
  - intros p q -> Hp Ht. rewrite write_library_eq.
    destruct (mkdir_fails φ), (tmp_fails φ),
      (dump_audio_files (get_content s)) as [data|],
      (write_fails φ) as [n|], (commit_fails φ);
      simpl;
      by rewrite ?lookup_insert_ne, ?lookup_delete_ne, ?lookup_insert_ne.
Qed.

(** X11.  Saving again a library that has not changed rewrites the same
    file: after a save without faults, a second one returns normally and
    leaves every file as the first left it. *)
Theorem save_twice s w p data :
  tmp_location p ≠ p →
  dump_audio_files (get_content s) = Some data →
  let once := save dump_audio_files tmp_location no_faults (Some p) (s, w) in
  let twice := save dump_audio_files tmp_location no_faults (Some p) once.1 in
  once.2 = Ok tt
  ∧ twice.2 = Ok tt
  ∧ files twice.1.2 = files once.1.2
  ∧ files once.1.2 !! p = Some data
  ∧ dirty twice.1.1 = false
  ∧ _contents twice.1.1 = _contents s.
Proof.
  clear load_audio_files.
  intros Htmp Hdump once twice.
  assert (Honce : once
    = ((set_dirty false s,
        set_files (λ fs, <[p := data]> (delete (tmp_location p) fs))
          (set_files (<[tmp_location p := data]>)
             (set_files (<[tmp_location p := []]>)
                (add_dir (os_path_dirname p) w)))), Ok tt)).
  { unfold once. rewrite save_eq. cbv zeta. rewrite write_library_eq.
    simpl. by rewrite Hdump. }
  unfold twice. rewrite Honce. cbn [fst snd].
  rewrite save_eq. cbv zeta. rewrite write_library_eq.
  change (get_content (set_dirty false s)) with (get_content s).
  rewrite Hdump. simpl.
  split; [done|]. split; [done|]. split; [|by rewrite lookup_insert_eq].
  apply map_eq. intros q.
  destruct (decide (q = p)) as [->|Hp]; [by rewrite !lookup_insert_eq|].
  rewrite !(lookup_insert_ne _ p) by done.
  destruct (decide (q = tmp_location p)) as [->|Ht];
    [by rewrite !lookup_delete_eq|].
  by repeat first [ rewrite lookup_delete_ne by done
                  | rewrite lookup_insert_ne by done ].
Qed.

(** X12.  [load] reads: whatever happens, the file it was pointed at is
    afterwards what it was before, the only file that can have changed is
    [<path>.not-valid], no file has disappeared and no directory was made. *)
Theorem load_keeps_files φ fname s w :
  let w' := (load load_audio_files φ fname (s, w)).1.2 in
  files w' !! fname = files w !! fname
  ∧ (∀ q, q ≠ fname +:+ ".not-valid" → files w' !! q = files w !! q)
  ∧ (∀ q, is_Some (files w !! q) → is_Some (files w' !! q))
  ∧ dirs w' = dirs w.
Proof.
  intros w'.
  assert (Hother : ∀ q, q ≠ fname +:+ ".not-valid" →
                        files w' !! q = files w !! q).
  { intros q Hq. unfold w'. rewrite load_eq, load_items_eq.
    destruct (read_denied φ); [done|].
    destruct (files w !! fname) as [data|]; [|done].
    destruct (load_audio_files data) as [items|]; [done|]. simpl.
    destruct (copy_fails φ) as [[|n]|]; simpl; by rewrite ?lookup_insert_ne. }
  split; [|split; [done|split]].
  - apply Hother. intros Heq. by apply (append_ne fname ".not-valid").
  - intros q Hq. destruct (decide (q = fname +:+ ".not-valid")) as [->|Hne];
      [|by rewrite Hother].
    revert Hq. unfold w'. rewrite load_eq, load_items_eq.
    destruct (read_denied φ); [done|].
    destruct (files w !! fname) as [data|]; [|done].
    destruct (load_audio_files data) as [items|]; [done|]. simpl.
    destruct (copy_fails φ) as [[|n]|]; simpl; rewrite ?lookup_insert_eq;
      eauto.
  - unfold w'. rewrite load_eq, load_items_eq.
    destruct (read_denied φ); [done|].
    destruct (files w !! fname) as [data|]; [|done].
    destruct (load_audio_files data) as [items|]; [done|]. simpl.
    by destruct (copy_fails φ) as [[|n]|].
Qed.

(** X13.  After [load(path)], a [save()] without argument is a save to
    that path, whatever the library went through in between, as long as
    nothing reassigned [filename]. *)
Theorem save_after_load φ φ' fname s w s' w' :
  filename s' = filename (load load_audio_files φ fname (s, w)).1.1 →
  save dump_audio_files tmp_location φ' None (s', w')
  = save dump_audio_files tmp_location φ' (Some fname) (s', w').
Proof.
  intros Hname.
  assert (Hf : filename (load load_audio_files φ fname (s, w)).1.1 = Some fname).
  { rewrite load_eq.
    by destruct (_load_items load_audio_files φ fname w) as [? [?|?]]. }
  rewrite !save_eq. cbv zeta. by rewrite Hname, Hf.
Qed.

(** X18.  [load] does not empty the library first: whatever the file holds
    and whatever fails, every key bound before is bound afterwards, and a
    key that no decoded item carries keeps its item. *)
Theorem load_never_forgets φ fname s w :
  let s' := (load load_audio_files φ fname (s, w)).1.1 in
  dom (_contents s) ⊆ dom (_contents s')
  ∧ (∀ k,
       (∀ data items v,
          files w !! fname = Some data → load_audio_files data = Some items →
          v ∈ items → key v ≠ k) →
       _contents s' !! k = _contents s !! k).
Proof.
  intros s'. unfold s'. rewrite load_eq, load_items_eq.
  destruct (read_denied φ); [done|].
  destruct (files w !! fname) as [data|]; [|done].
  destruct (load_audio_files data) as [items|] eqn:Hdec.
  - simpl. split.
    + rewrite dom_insert_loop. apply union_subseteq_l.
    + intros k Hk. apply lookup_insert_loop_other.
      intros v Hv. by apply (Hk data items).
  - simpl. by destruct (copy_fails φ) as [[|n]|].
Qed.

End PersistenceFacts.

Section ScannerFacts.
Variable ishidden : string → bool.
Variable realpath : string → string.

Lemma node_nested_ind (P : node → Prop) :
  P DirLink →
  (∀ dnames fnames, Forall (λ d, P d.2) dnames → P (Dir dnames fnames)) →
  ∀ t, P t.
Proof.
  intros Hlink Hdir. fix IH 1. intros [dnames fnames|]; [|exact Hlink].
  apply Hdir. induction dnames as [|[d sub] ds IHds]; constructor.
  - apply IH.
  - exact IHds.
Qed.

(** After the directory itself, [os.walk] yields what it yields for each
    sub-directory that is kept. *)
Lemma elem_of_os_walk_below keep path dnames fnames x :
  x ∈ tail (os_walk keep path (Dir dnames fnames))
  ↔ ∃ d sub, (d, sub) ∈ dnames ∧ keep (os_path_join path d) = true
             ∧ x ∈ os_walk keep (os_path_join path d) sub.
Proof.
  induction dnames as [|[d sub] ds IH].
  - simpl. split; [by intros ?%elem_of_nil|].
    intros (d & sub & Hd & _). by apply elem_of_nil in Hd.
  - simpl in *. rewrite elem_of_app, IH. split.
    + intros [Hx|(d' & sub' & Hd & ?)].
      * exists d, sub. destruct (keep _) eqn:Hk.
        -- split; [by left|done].
        -- by apply elem_of_nil in Hx.
      * exists d', sub'. split; [by right|done].
    + intros (d' & sub' & Hd & Hk & Hx).
      apply elem_of_cons in Hd as [[= -> ->]|Hd].
      * left. by rewrite Hk.
      * right. eauto.
Qed.

Lemma elem_of_os_walk keep path dnames fnames x :
  x ∈ os_walk keep path (Dir dnames fnames)
  ↔ x = (path, fnames)
    ∨ ∃ d sub, (d, sub) ∈ dnames ∧ keep (os_path_join path d) = true
               ∧ x ∈ os_walk keep (os_path_join path d) sub.
Proof.
  rewrite <-elem_of_os_walk_below.
  change (os_walk keep path (Dir dnames fnames))
    with ((path, fnames) :: tail (os_walk keep path (Dir dnames fnames))) at 1.
  apply elem_of_cons.
Qed.

(** Every file name [os.walk] yields belongs to a file entry of the tree
    that lies below kept directories only. *)
Lemma os_walk_located keep t : ∀ root path fnames f,
  (path, fnames) ∈ os_walk keep root t → f ∈ fnames →
  ∃ chain, located root t chain (os_path_join path f)
           ∧ Forall (λ d, keep d = true) chain.
Proof.
  induction t as [|dnames fnames' IH] using node_nested_ind;
    intros root path fnames f Hw Hf.
  - by apply elem_of_nil in Hw.
  - apply elem_of_os_walk in Hw as [[= -> ->]|(d & sub & Hd & Hk & Hw)].
    + exists []. split; [by constructor|constructor].
    + rewrite Forall_forall in IH.
      destruct (IH (d, sub) Hd _ _ _ f Hw Hf) as (chain & Hloc & Hkeep).
      exists (os_path_join root d :: chain). split.
      * by eapply located_below.
      * by constructor.
Qed.

(** And every such entry is yielded. *)
Lemma located_os_walk keep root t chain full :
  located root t chain full →
  Forall (λ d, keep d = true) chain →
  ∃ path fnames f,
    (path, fnames) ∈ os_walk keep root t ∧ f ∈ fnames
    ∧ full = os_path_join path f.
Proof.
  induction 1 as [path dnames fnames f Hf
                 |path dnames fnames d sub chain full Hd Hloc IH];
    intros Hkeep.
  - exists path, fnames, f. split; [|done].
    apply elem_of_os_walk. by left.
  - apply Forall_cons in Hkeep as [Hk Hkeep].
    destruct (IH Hkeep) as (path' & fnames' & f & Hw & Hf & ->).
    exists path', fnames', f. split; [|done].
    apply elem_of_os_walk. right. eauto.
Qed.

Lemma existsb_prefix_false exclude path :
  existsb (λ p, String.prefix p path) exclude = false
  ↔ ∀ e, e ∈ exclude → String.prefix e path = false.
Proof.
  rewrite <-not_true_iff_false, existsb_exists. split.
  - intros Hno e He. apply not_true_iff_false. intros Hp. apply Hno.
    exists e. by rewrite <-list_elem_of_In.
  - intros Hall (e & He & Hp). apply list_elem_of_In in He.
    by rewrite (Hall e He) in Hp.
Qed.

(** [skip] lets a path through when it is not hidden (if hidden paths are
    to be skipped) and starts with none of the excluded prefixes. *)
Lemma skip_false exclude skip_hidden path :
  skip ishidden exclude skip_hidden path = false
  ↔ (skip_hidden = true → ishidden path = false)
    ∧ ∀ e, e ∈ exclude → String.prefix e path = false.
Proof.
  clear realpath.
  unfold skip. destruct skip_hidden, (ishidden path); simpl;
    rewrite ?existsb_prefix_false; [|naive_solver..].
  split; [done|]. intros [Hh _]. by specialize (Hh eq_refl).
Qed.

Lemma kept_chain skip_hidden chain :
  Forall (λ d, negb (skip_hidden && ishidden d) = true) chain
  ↔ (skip_hidden = true → Forall (λ d, ishidden d = false) chain).
Proof.
  destruct skip_hidden; simpl.
  - split.
    + intros Hc _. eapply Forall_impl; [exact Hc|].
      intros d. simpl. by destruct (ishidden d).
    + intros Hc. eapply Forall_impl; [exact (Hc eq_refl)|].
      intros d. simpl. by intros ->.
  - split; [done|]. intros _. by apply Forall_true.
Qed.

(** What [iter_paths] yields, in terms of what [os.walk] yields. *)
Lemma elem_of_iter_paths t root exclude skip_hidden p :
  p ∈ iter_paths ishidden realpath t root exclude skip_hidden
  ↔ skip_hidden && ishidden root = false
    ∧ ∃ path fnames f,
        (path, fnames)
          ∈ os_walk (λ d, negb (skip_hidden && ishidden d)) root t
        ∧ f ∈ fnames
        ∧ skip ishidden exclude skip_hidden (os_path_join path f) = false
        ∧ p = realpath (os_path_join path f)
        ∧ skip ishidden exclude skip_hidden p = false.
Proof.
  unfold iter_paths. destruct (skip_hidden && ishidden root).
  { split; [by intros ?%elem_of_nil|by intros [? _]]. }
  rewrite list_elem_of_bind. split.
  - intros ([path fnames] & Hp & Hw).
    apply list_elem_of_bind in Hp as (f & Hp & Hf).
    split; [done|]. exists path, fnames, f.
    destruct (skip _ _ _ (os_path_join path f)) eqn:Hs1;
      [by apply elem_of_nil in Hp|].
    destruct (skip _ _ _ (realpath _)) eqn:Hs2;
      [by apply elem_of_nil in Hp|].
    apply list_elem_of_singleton in Hp as ->. done.
  - intros (_ & path & fnames & f & Hw & Hf & Hs1 & -> & Hs2).
    exists (path, fnames). split; [|done].
    apply list_elem_of_bind. exists f. split; [|done].
    rewrite Hs1, Hs2. by apply list_elem_of_singleton.
Qed.

(** X20.  With [skip_hidden] set and a hidden root nothing is yielded.  A
    path is yielded exactly when it is the resolved path of a file entry of
    the walked tree that lies below no pruned (hidden, when [skip_hidden] is
    set) directory of the tree, whose own path passes the exclude and hidden
    tests and whose resolved path passes them again.  So a yielded path
    starts with no excluded prefix, is itself not hidden when [skip_hidden]
    is set, and is absolute as far as [os.path.realpath] returns absolute
    paths.  Of the directories above the resolved path nothing follows:
    they are looked at only as far as [ishidden] looks at them. *)
Theorem iter_paths_spec t root exclude skip_hidden p :
  (skip_hidden = true → ishidden root = true →
     iter_paths ishidden realpath t root exclude skip_hidden = [])
  ∧ (p ∈ iter_paths ishidden realpath t root exclude skip_hidden
     ↔ (skip_hidden = true → ishidden root = false)
       ∧ ∃ chain full,
           located root t chain full
           ∧ (skip_hidden = true → Forall (λ d, ishidden d = false) chain)
           ∧ skip ishidden exclude skip_hidden full = false
           ∧ p = realpath full
           ∧ skip ishidden exclude skip_hidden p = false)
  ∧ (p ∈ iter_paths ishidden realpath t root exclude skip_hidden →
       (∀ e, e ∈ exclude → String.prefix e p = false)
       ∧ (skip_hidden = true → ishidden p = false)
       ∧ ((∀ q, os_path_isabs (realpath q) = true) →
            os_path_isabs p = true)).
Proof.
  split; [|split].
  - intros -> Hroot. unfold iter_paths. by rewrite Hroot.
  - rewrite elem_of_iter_paths. split.
    + intros (Hroot & path & fnames & f & Hw & Hf & Hs1 & Hp & Hs2).
      split; [intros ->; by destruct (ishidden root)|].
      destruct (os_walk_located _ _ _ _ _ f Hw Hf) as (chain & Hloc & Hkeep).
      exists chain, (os_path_join path f). by rewrite <-kept_chain.
    + intros (Hroot & chain & full & Hloc & Hkeep & Hs1 & Hp & Hs2).
      split.
      { destruct skip_hidden; [|done]. simpl. by apply Hroot. }
      apply kept_chain in Hkeep.
      destruct (located_os_walk _ _ _ _ _ Hloc Hkeep)
        as (path & fnames & f & Hw & Hf & ->).
      by exists path, fnames, f.
  - intros (_ & path & fnames & f & _ & _ & _ & Hp & Hs2)%elem_of_iter_paths.
    apply skip_false in Hs2 as [Hh He].
    split; [done|]. split; [done|]. intros Habs. by rewrite Hp.
Qed.

(** ** Further properties of the scanner *)

(** X14.  Excluding more never yields more: a path yielded under a list of
    excluded prefixes is yielded under every list that holds only prefixes
    of that list (under the empty one in particular). *)
Theorem iter_paths_exclude_antitone t root exclude exclude' skip_hidden p :
  (∀ e, e ∈ exclude → e ∈ exclude') →
  p ∈ iter_paths ishidden realpath t root exclude' skip_hidden →
  p ∈ iter_paths ishidden realpath t root exclude skip_hidden.
Proof.
  intros Hsub. rewrite !elem_of_iter_paths.
  intros (Hroot & path & fnames & f & Hw & Hf & Hs1 & Hp & Hs2).
  split; [done|]. exists path, fnames, f.
  apply skip_false in Hs1 as [Hh1 He1]. apply skip_false in Hs2 as [Hh2 He2].
  split; [done|]. split; [done|].
  split; [apply skip_false; split; [done|]; intros e He; by apply He1, Hsub|].
  split; [done|].
  apply skip_false; split; [done|]. intros e He. by apply He2, Hsub.
Qed.

(** X15.  [skip_hidden] only removes: what is yielded with it is yielded
    without it as well, and is not hidden. *)
Theorem iter_paths_skip_hidden_removes t root exclude p :
  p ∈ iter_paths ishidden realpath t root exclude true →
  p ∈ iter_paths ishidden realpath t root exclude false
  ∧ ishidden p = false
  ∧ ishidden root = false.
Proof.
  rewrite !elem_of_iter_paths.
  intros (Hroot & path & fnames & f & Hw & Hf & Hs1 & Hp & Hs2).
  destruct (os_walk_located _ _ _ _ _ f Hw Hf) as (chain & Hloc & _).
  destruct (located_os_walk (λ d, negb (false && ishidden d)) _ _ _ _ Hloc)
    as (path' & fnames' & f' & Hw' & Hf' & Hfull).
  { by apply Forall_true. }
  apply skip_false in Hs1 as [Hh1 He1]. apply skip_false in Hs2 as [Hh2 He2].
  split; [|split; [by apply Hh2|by destruct (ishidden root)]].
  split; [done|]. exists path', fnames', f'. rewrite <-Hfull.
  split; [done|]. split; [done|].
  split; [by apply skip_false|]. split; [done|]. by apply skip_false.
Qed.

End ScannerFacts.

(** ** The library on concrete inputs *)

Lemma keyed_empty_library : keyed empty_library.
Proof. intros k v. unfold empty_library. simpl. by rewrite lookup_empty. Qed.

(** Adding two tracks, one of them twice, to an empty library, and adding
    them again. *)
Lemma add_spec_witness :
  ∃ s',
    add [track_a; track_b; track_a] empty_library
    = (s', Ok {[track_a; track_b]})
    ∧ dirty s' = true
    ∧ events s' = [Emit Added {[track_a; track_b]}]
    ∧ add [track_a; track_b; track_a] s' = (s', Ok ∅).
Proof.
  destruct (add_spec empty_library [track_a; track_b; track_a])
    as (s' & Hadd & _ & _ & _ & Hne & _ & Hagain).
  exists s'. destruct Hne as (Hd & He & _); [by_elements|].
  rewrite Hadd, Hd, He, Hagain.
  split; [by vm_compute|]. split; [done|]. split; [by vm_compute|done].
Defined.

(** C2, at the failing input.  The library holds [track_a]; asked to remove
    [track_a] and another object for the same path, [remove] raises
    [KeyError] at the second deletion: the entry is gone, yet [dirty] is
    still false and no [removed] signal was emitted. *)
Theorem remove_shared_key_at :
  ∃ s',
    remove [track_a; track_a'] library_a = (s', Raise KeyError)
    ∧ _contents library_a = {["a" := track_a]}
    ∧ _contents s' = ∅
    ∧ dirty s' = false
    ∧ events s' = [].
Proof. eexists. split; [by vm_compute|]. by vm_compute. Qed.

(** C4, the claim refuted: a clean library is still clean after
    [_load_init]. *)
Lemma load_init_not_dirty :
  ¬ (dirty (_load_init [track_a; track_b] empty_library).1 = true).
Proof. by vm_compute. Qed.

(** I1 holds of a library restored by [_load_init], and of what [add],
    [remove] and [_load_item] make of it. *)
Lemma keyed_preserved_witness :
  keyed library_a
  ∧ keyed (add [track_b] library_a).1
  ∧ keyed (remove [track_a; track_a'] library_a).1
  ∧ keyed (_load_item track_a' library_a).1.
Proof.
  assert (keyed library_a) as Ha.
  { apply (keyed_preserved empty_library [track_a] track_a keyed_empty_library). }
  split; [exact Ha|].
  destruct (keyed_preserved library_a [track_b] track_a' Ha) as (? & _ & ? & _).
  destruct (keyed_preserved library_a [track_a; track_a'] track_a' Ha)
    as (_ & ? & _).
  auto.
Defined.

(** C10, the claim refuted: a list is not a key of the mapping and has no
    [key] attribute, and testing it for membership raises [TypeError]. *)
Lemma contains_unhashable_raises :
  ¬ (∀ o : pyobj string song,
       dict_contains (_contents empty_library) o ≠ Ok true →
       getattr_key o = Raise AttributeError →
       __contains__ empty_library o = Ok false).
Proof. intros Hc. by specialize (Hc (PUnhashable 0) ltac:(done) eq_refl). Qed.

Lemma contains_hashable_witness :
  ¬ raises (__contains__ library_a (POpaque 7))
  ∧ __contains__ library_a (POpaque 7) = Ok false.
Proof.
  destruct (contains_hashable library_a (POpaque 7) eq_refl) as (Hr & Hf & _).
  split; [exact Hr|]. by apply Hf.
Defined.


(** ** Persistence on concrete inputs *)

(** A save whose encoder refuses leaves the library dirty and returns
    normally; a save that goes through clears the flag. *)
Lemma save_dirty_spec_witness :
  (save toy_dump toy_tmp no_faults (Some "lib.db") (crowded_library, disk)).2
  = Ok tt
  ∧ dirty
      (save toy_dump toy_tmp no_faults (Some "lib.db") (crowded_library, disk)).1.1
    = true
  ∧ dirty
      (save toy_dump toy_tmp no_faults (Some "lib.db") (unsaved_library, disk)).1.1
    = false.
Proof.
  destruct (save_dirty_spec toy_dump toy_tmp no_faults (Some "lib.db")
              crowded_library disk) as (_ & _ & Hser & _).
  destruct Hser as (Hr & Hd & _); [by vm_compute|].
  destruct (save_dirty_spec toy_dump toy_tmp no_faults (Some "lib.db")
              unsaved_library disk) as (_ & Hok & _).
  destruct Hok as (_ & Hd' & _); [by vm_compute|].
  split; [exact Hr|]. split; [|exact Hd']. rewrite Hd. by vm_compute.
Defined.

(** The earlier save survives an encoder that refuses and a disk that fills
    up. *)
Lemma save_atomic_witness :
  files (save toy_dump toy_tmp no_faults (Some "lib.db")
           (crowded_library, disk)).1.2 !! "lib.db"
  = Some [Byte.x2a]
  ∧ files (save toy_dump toy_tmp disk_full None
             (set_filename (Some "lib.db") unsaved_library, disk)).1.2
    !! "lib.db"
    = Some [Byte.x2a].
Proof.
  split.
  - destruct (save_atomic toy_dump toy_tmp no_faults (Some "lib.db")
                crowded_library disk "lib.db" eq_refl ltac:(done))
      as (seen & _ & _ & _ & Hfail & _).
    destruct Hfail as [Hfile _]; [by vm_compute|]. exact Hfile.
  - destruct (save_atomic toy_dump toy_tmp disk_full None
                (set_filename (Some "lib.db") unsaved_library) disk "lib.db"
                eq_refl ltac:(done))
      as (seen & _ & _ & _ & Hfail & _).
    destruct Hfail as [Hfile _]; [by vm_compute|]. exact Hfile.
Defined.

(** Loading garbage: no exception, an empty library, and the bytes put
    aside. *)
Lemma load_spec_witness :
  ∃ s' w',
    load toy_load no_faults "lib.db" (empty_library, bad_disk)
    = ((s', w'), Ok tt)
    ∧ _contents s' = ∅
    ∧ filename s' = Some "lib.db"
    ∧ files w' !! "lib.db.not-valid" = Some [Byte.x00; Byte.xff].
Proof.
  destruct (load_spec toy_load no_faults "lib.db" empty_library bad_disk)
    as (s' & w' & Hload & Hname & _ & _ & _ & Hread).
  exists s', w'. split; [exact Hload|].
  destruct (Hread [Byte.x00; Byte.xff] eq_refl eq_refl) as [Hbad _].
  destruct Hbad as (_ & Hc & Hcopy & _); [done|].
  destruct Hcopy as [Hf _]; [done|].
  split; [exact Hc|]. split; [exact Hname|exact Hf].
Defined.

(** ** The scanner on concrete inputs *)

(** The scenario of the specification. *)
Example iter_paths_scenario :
  iter_paths dot_hidden id scenario_tree "/r" [] true
  = ["/r/a.txt"; "/r/b/c.txt"]
  ∧ iter_paths dot_hidden id scenario_tree "/r" [] false
    = ["/r/a.txt"; "/r/.hidden/x"; "/r/b/c.txt"]
  ∧ iter_paths dot_hidden id scenario_tree "/r" ["/r/b"] true = ["/r/a.txt"]
  ∧ iter_paths dot_hidden id scenario_tree "/.r" [] true = [].
Proof. by vm_compute. Qed.

(** The tests after resolution are the tests of [skip] on the resolved
    path: a link that resolves to a file excluded by prefix is dropped, and
    with a test for hidden paths that looks at the last component only, a
    link to a file in a hidden directory is yielded as that file. *)
Example iter_paths_resolved :
  iter_paths dot_hidden linked_realpath linked_tree "/r" ["/r/.hidden"] true
  = ["/r/a.txt"; "/r/b/c.txt"]
  ∧ iter_paths dot_hidden linked_realpath linked_tree "/r" [] true
    = ["/r/a.txt"; "/r/.hidden/x"; "/r/b/c.txt"].
Proof. by vm_compute. Qed.

(** C9, at the failing input.  The directory [/r] holds the hidden
    directory [.hidden] with the file [x], and a link [l.txt] to that file.
    With [skip_hidden] set the hidden directory is pruned from the walk, yet
    [/r/.hidden/x] is yielded: the link's own path passes the tests, and
    after resolution [skip] asks [ishidden] about [/r/.hidden/x], whose last
    component is not hidden.  The yielded path is a file entry of the walked
    tree below the hidden directory [/r/.hidden]. *)
Theorem iter_paths_yields_hidden_file :
  iter_paths dot_hidden linked_realpath linked_tree "/r" [] true
  = ["/r/a.txt"; "/r/.hidden/x"; "/r/b/c.txt"]
  ∧ linked_realpath "/r/l.txt" = "/r/.hidden/x"
  ∧ located "/r" linked_tree ["/r/.hidden"] "/r/.hidden/x"
  ∧ dot_hidden "/r/.hidden" = true
  ∧ skip dot_hidden [] true "/r/l.txt" = false
  ∧ skip dot_hidden [] true "/r/.hidden/x" = false.
Proof.
  split; [by vm_compute|]. split; [by vm_compute|].
  split; [|by vm_compute].
  apply (located_below "/r" _ _ ".hidden" (Dir [] ["x"]) [] "/r/.hidden/x").
  - apply list_elem_of_here.
  - apply (located_here "/r/.hidden" [] ["x"] "x"), list_elem_of_here.
Qed.

Lemma iter_paths_spec_witness :
  "/r/b/c.txt" ∈ iter_paths dot_hidden id scenario_tree "/r" ["/r/.h"] true
  ∧ ("/r/.hidden/x"
       ∈ iter_paths dot_hidden linked_realpath linked_tree "/r" [] true →
     dot_hidden "/r/.hidden/x" = false).
Proof.
  split.
  - destruct (iter_paths_spec dot_hidden id scenario_tree "/r" ["/r/.h"] true
                "/r/b/c.txt") as (_ & Hiff & _).
    apply Hiff. split; [done|].
    exists ["/r/b"], "/r/b/c.txt". split; [|split].
    + apply (located_below "/r" _ _ "b" (Dir [] ["c.txt"]) [] "/r/b/c.txt").
      * apply list_elem_of_further, list_elem_of_here.
      * apply (located_here "/r/b" [] ["c.txt"] "c.txt"), list_elem_of_here.
    + intros _. by repeat constructor.
    + by vm_compute.
  - intros Hin.
    destruct (iter_paths_spec dot_hidden linked_realpath linked_tree "/r" []
                true "/r/.hidden/x") as (_ & _ & Hout).
    destruct (Hout Hin) as (_ & Hh & _). by apply Hh.
Defined.

(** ** The further properties on concrete inputs *)

Lemma keyed_library_a : keyed library_a.
Proof.
  intros k v. apply (keyed_insert_loop [track_a] ∅).
  intros k' v'. by rewrite lookup_empty.
Qed.

Lemma keyed_library_t : keyed library_t.
Proof.
  intros k v. apply (keyed_insert_loop [("t", 0)] ∅).
  intros k' v'. by rewrite lookup_empty.
Qed.

Lemma two_tracks_distinct (v v' : song) :
  v ∈ [track_a; track_b] → v' ∈ [track_a; track_b] → key v = key v' → v = v'.
Proof.
  intros Hv Hv'.
  apply elem_of_cons in Hv as [->|Hv%list_elem_of_singleton];
    apply elem_of_cons in Hv' as [->|Hv'%list_elem_of_singleton];
    subst; done.
Qed.

Lemma add_then_remove_witness :
  ∃ s2,
    remove [track_a; track_b] (add [track_a; track_b] empty_library).1
    = (s2, Ok (list_to_set [track_a; track_b]))
    ∧ _contents s2 = ∅.
Proof.
  destruct (add_then_remove empty_library [track_a; track_b])
    as (s1 & s2 & Hadd & Hrem & Hc & _).
  - done.
  - intros v _. unfold empty_library. simpl. rewrite dom_empty_L.
    apply not_elem_of_empty.
  - apply two_tracks_distinct.
  - exists s2. rewrite Hadd. split; [exact Hrem|exact Hc].
Defined.

Lemma dirty_stays_witness :
  dirty (remove [track_a] unsaved_library).1 = true
  ∧ dirty (changed [track_b] unsaved_library).1 = true.
Proof.
  destruct (dirty_stays unsaved_library [track_a] track_a) as (_ & Hr & _);
    [by vm_compute|].
  destruct (dirty_stays unsaved_library [track_b] track_a) as (_ & _ & Hc & _);
    [by vm_compute|].
  split; [exact Hr|exact Hc].
Defined.

Lemma views_agree_witness :
  keys library_a = key <$> values library_a
  ∧ length (values library_a) = __len__ library_a.
Proof.
  destruct (views_agree library_a keyed_library_a) as (Hk & _ & Hl & _).
  split; [exact Hk|exact Hl].
Defined.

Lemma remove_distinct_keys_witness :
  ∃ s',
    remove [track_a'; track_b] library_a = (s', Ok {[track_a']})
    ∧ dirty s' = true
    ∧ _contents s' !! "a" = None.
Proof.
  destruct (remove_distinct_keys library_a [track_a'; track_b])
    as (s' & Hrem & _ & Hne & _).
  - intros v v' Hv%elem_of_elements Hv'%elem_of_elements.
    assert (elements
              (list_to_set (C:=gset song)
                 (filter (λ v, key v ∈ dom (_contents library_a))
                    [track_a'; track_b])) = [track_a']) as Hel
      by (by vm_compute).
    rewrite Hel in Hv, Hv'.
    apply list_elem_of_singleton in Hv, Hv'. by subst.
  - exists s'. destruct Hne as (Hd & _ & Hgone & _); [by_elements|].
    rewrite Hrem, Hd. split; [by vm_compute|]. split; [done|].
    apply (Hgone track_a'). apply elem_of_elements. vm_compute.
    apply list_elem_of_here.
Defined.

Lemma save_load_roundtrip_witness :
  _contents
    (load toy_load no_faults "lib.db"
       (new_library 1 None,
        (save toy_dump toy_tmp no_faults (Some "lib.db") (library_t, disk)).1.2)
    ).1.1
  = _contents library_t.
Proof.
  destruct (save_load_roundtrip toy_load toy_dump toy_tmp library_t disk
              "lib.db" [Byte.x2a] 1 None keyed_library_t)
    as (_ & _ & _ & _ & Hc & _).
  - done.
  - by vm_compute.
  - by vm_compute.
  - exact Hc.
Defined.

Lemma save_twice_witness :
  files
    (save toy_dump toy_tmp no_faults (Some "lib.db")
       (save toy_dump toy_tmp no_faults (Some "lib.db") (unsaved_library, disk)).1
    ).1.2
  = files
      (save toy_dump toy_tmp no_faults (Some "lib.db") (unsaved_library, disk)
      ).1.2.
Proof.
  destruct (save_twice toy_dump toy_tmp unsaved_library disk "lib.db"
              [Byte.x2a; Byte.x2a]) as (_ & _ & Hf & _).
  - done.
  - by vm_compute.
  - exact Hf.
Defined.

Lemma save_after_load_witness :
  save toy_dump toy_tmp disk_full None
    (load toy_load no_faults "lib.db" (empty_library, disk)).1
  = save toy_dump toy_tmp disk_full (Some "lib.db")
      (load toy_load no_faults "lib.db" (empty_library, disk)).1.
Proof.
  destruct (load toy_load no_faults "lib.db" (empty_library, disk)).1
    as [s' w'] eqn:Hl.
  apply (save_after_load toy_load toy_dump toy_tmp no_faults disk_full "lib.db"
           empty_library disk s' w').
  by rewrite Hl.
Defined.

Lemma iter_paths_exclude_antitone_witness :
  "/r/a.txt" ∈ iter_paths dot_hidden id scenario_tree "/r" [] true.
Proof.
  apply (iter_paths_exclude_antitone dot_hidden id scenario_tree "/r"
           [] ["/r/b"] true "/r/a.txt").
  - by intros e ?%elem_of_nil.
  - assert (iter_paths dot_hidden id scenario_tree "/r" ["/r/b"] true
            = ["/r/a.txt"]) as -> by (by vm_compute).
    apply list_elem_of_here.
Defined.

Lemma iter_paths_skip_hidden_removes_witness :
  "/r/b/c.txt" ∈ iter_paths dot_hidden id scenario_tree "/r" [] false
  ∧ dot_hidden "/r/b/c.txt" = false.
Proof.
  destruct (iter_paths_skip_hidden_removes dot_hidden id scenario_tree "/r" []
              "/r/b/c.txt") as (Hin & Hh & _).
  - assert (iter_paths dot_hidden id scenario_tree "/r" [] true
            = ["/r/a.txt"; "/r/b/c.txt"]) as -> by (by vm_compute).
    apply list_elem_of_further, list_elem_of_here.
  - split; [exact Hin|exact Hh].
Defined.
